(** * Immersive-control plugin: the timed-state registry, the trigger
      evaluator and the prompt-injection step of [main.py]

    The development embeds three parts of the plugin:

    - [StateManager]: the two dictionaries [active_states] and [cooldowns]
      with [activate_state], [is_state_active], [get_remaining_time],
      [deactivate_state], [_cleanup_expired_states] and
      [get_active_states_info];
    - [Main.should_trigger] with [_check_user_permission] and
      [_clean_message_content];
    - [Main.before_llm_request], the rendering of the prompt template and
      the update of the request's system prompt.

    Conventions of the embedding.

    - A Python [str] is the list of its Unicode code points.
    - A reading of [time.time()] is a rational number; arithmetic on
      timestamps is exact.  Every function that reads the clock takes the
      reading as an argument, one argument per call of [time.time()] in the
      source.
    - Each method of [StateManager] runs under [self.lock]; a method is
      therefore one atomic transition of the registry, and it returns the
      new registry together with its Python return value.  *)

From Stdlib Require Import ZArith QArith Qround Qminmax Lqa String Ascii Decimal.
From Stdlib Require Floats Uint63.
From stdpp Require Import gmap list fin_maps.

Set Default Proof Using "Type".
Local Open Scope Z_scope.

(** ** Python strings *)

Module PyStr.

(** A code point. *)
Definition char : Type := N.

(** A Python [str]. *)
Definition str : Type := list N.

(** Bytes of a literal of this file. *)
Fixpoint bytes_of_string (s : string) : list N :=
  match s with
  | EmptyString => []
  | String a r => N_of_ascii a :: bytes_of_string r
  end.

(** UTF-8 decoding of the literals of this file: [pending] continuation
    bytes are still expected for the code point accumulated in [acc]. *)
Fixpoint utf8_decode (pending : nat) (acc : N) (bs : list N) : str :=
  match bs with
  | [] => []
  | b :: r =>
      match pending with
      | O =>
          if (b <? 128)%N then b :: utf8_decode 0 0%N r
          else if (b <? 224)%N then utf8_decode 1 (b - 192)%N r
          else if (b <? 240)%N then utf8_decode 2 (b - 224)%N r
          else utf8_decode 3 (b - 240)%N r
      | S k =>
          let acc' := (acc * 64 + (b - 128))%N in
          match k with
          | O => acc' :: utf8_decode 0 0%N r
          | S _ => utf8_decode k acc' r
          end
      end
  end.

(** The [str] written by a literal. *)
Definition lit (s : string) : str := utf8_decode 0 0%N (bytes_of_string s).

(** [str(n)] for a non-negative integer given by its decimal digits. *)
Fixpoint str_of_uint (d : Decimal.uint) : str :=
  match d with
  | Nil => []
  | D0 r => 48%N :: str_of_uint r
  | D1 r => 49%N :: str_of_uint r
  | D2 r => 50%N :: str_of_uint r
  | D3 r => 51%N :: str_of_uint r
  | D4 r => 52%N :: str_of_uint r
  | D5 r => 53%N :: str_of_uint r
  | D6 r => 54%N :: str_of_uint r
  | D7 r => 55%N :: str_of_uint r
  | D8 r => 56%N :: str_of_uint r
  | D9 r => 57%N :: str_of_uint r
  end.

(** [str(z)] for an [int]: decimal digits, with a leading minus sign for a
    negative number. *)
Definition str_of_int (z : Z) : str :=
  match Z.to_int z with
  | Decimal.Pos d => str_of_uint d
  | Decimal.Neg d => 45%N :: str_of_uint d
  end.

(** [sub in s] for two strings: [sub] occurs in [s] as a contiguous run. *)
Fixpoint prefixb (p s : str) : bool :=
  match p, s with
  | [], _ => true
  | _ :: _, [] => false
  | a :: p', b :: s' => (a =? b)%N && prefixb p' s'
  end.

Fixpoint contains (sub s : str) : bool :=
  prefixb sub s ||
  match s with
  | [] => false
  | _ :: s' => contains sub s'
  end.

(** [sub] is a substring of [s]: a contiguous run of [s]. *)
Definition occurs_in (sub s : str) : Prop :=
  ∃ pre post, s = pre ++ sub ++ post.

(** [Py_UNICODE_ISSPACE]: the code points that [str.strip()] removes and
    that [\s] matches in a [str] pattern. *)
Definition isspace (c : char) : bool :=
  ((9 <=? c) && (c <=? 13) || (28 <=? c) && (c <=? 32)
   || (c =? 133) || (c =? 160) || (c =? 5760)
   || (8192 <=? c) && (c <=? 8202)
   || (c =? 8232) || (c =? 8233) || (c =? 8239) || (c =? 8287)
   || (c =? 12288))%N.

Fixpoint lstrip (s : str) : str :=
  match s with
  | [] => []
  | c :: r => if isspace c then lstrip r else s
  end.

(** [s.strip()] *)
Definition strip (s : str) : str := rev (lstrip (rev (lstrip s))).

End PyStr.
Import PyStr.

(** ** The clock *)

Module Clock.

(** A reading of [time.time()]. *)
Definition timestamp : Type := Q.

(** [a < b] and [a >= b] on timestamps, as booleans. *)
Definition ltb (a b : Q) : bool := negb (Qle_bool b a).
Definition geb (a b : Q) : bool := Qle_bool b a.

(** [int(x)] for a float [x]: truncation towards zero. *)
Definition py_int (x : Q) : Z :=
  if Qle_bool 0 x then Qfloor x else Qceiling x.

(** [t + n] for a float [t] and an [int] [n]. *)
Definition add_seconds (t : Q) (n : Z) : Q := (t + inject_Z n)%Q.

End Clock.
Import Clock.

(** ** StateManager *)

Module StateManager.

(** The object: [self.active_states], [self.cooldowns] (session key to
    end timestamp) and [self.max_concurrent_states]. *)
Record t : Type := mk {
  active_states : gmap str Q;
  cooldowns : gmap str Q;
  max_concurrent_states : Z
}.

(** [StateManager(max_concurrent_states)] *)
Definition init (max_concurrent : Z) : t :=
  mk ∅ ∅ max_concurrent.

(** [generate_state_key]: [f"{platform}_{session_id}" if platform else
    session_id]. *)
Definition generate_state_key (session_id platform : str) : str :=
  match platform with
  | [] => session_id
  | _ :: _ => platform ++ lit "_" ++ session_id
  end.

(** An entry of either dictionary is expired at [now] when
    [now >= end_time]. *)
Definition expired (now : Q) (kv : str * Q) : Prop := geb now kv.2 = true.

#[export] Instance expired_dec now kv : Decision (expired now kv) :=
  decide (geb now kv.2 = true).

(** [_cleanup_expired_states]: both dictionaries lose the entries that
    are expired at the clock reading [now] the method takes. *)
Definition _cleanup_expired_states (self : t) (now : Q) : t :=
  mk (filter (λ kv, ¬ expired now kv) (active_states self))
     (filter (λ kv, ¬ expired now kv) (cooldowns self))
     (max_concurrent_states self).

(** The messages of [activate_state]. *)
Definition msg_cooldown (remaining : Z) : str :=
  lit "冷却中，请等待 " ++ str_of_int remaining ++ lit " 秒".
Definition msg_already_active (remaining : Z) : str :=
  lit "已经在控制状态中，剩余时间 " ++ str_of_int remaining ++ lit " 秒".
Definition msg_capacity : str :=
  lit "当前并发控制状态已达上限，请稍后再试".
Definition msg_activated (duration_seconds : Z) : str :=
  lit "🎮 控制模式已激活，AI将害羞 " ++ str_of_int duration_seconds
    ++ lit " 秒！".

(** The cooldown check of [activate_state]: the remaining whole seconds
    when [state_key] has a cooldown entry with [current_time <
    cooldown_end]. *)
Definition cooldown_remaining (self : t) (state_key : str)
    (current_time : Q) : option Z :=
  match cooldowns self !! state_key with
  | Some cooldown_end =>
      if ltb current_time cooldown_end
      then Some (py_int (cooldown_end - current_time)%Q)
      else None
  | None => None
  end.

(** [activate_state].  [current_time] is the reading taken on entry,
    [cleanup_time] the one [_cleanup_expired_states] takes. *)
Definition activate_state (self : t) (session_id platform : str)
    (duration_seconds cooldown_seconds : Z)
    (current_time cleanup_time : Q) : t * (bool * str) :=
  let state_key := generate_state_key session_id platform in
  match cooldown_remaining self state_key current_time with
  | Some remaining => (self, (false, msg_cooldown remaining))
  | None =>
      let after_active_check : t + Z :=
        match active_states self !! state_key with
        | Some end_time =>
            if ltb current_time end_time
            then inr (py_int (end_time - current_time)%Q)
            else inl (mk (delete state_key (active_states self))
                         (cooldowns self) (max_concurrent_states self))
        | None => inl self
        end in
      match after_active_check with
      | inr remaining => (self, (false, msg_already_active remaining))
      | inl self1 =>
          let self2 := _cleanup_expired_states self1 cleanup_time in
          if Z.of_nat (size (active_states self2))
               >=? max_concurrent_states self2
          then (self2, (false, msg_capacity))
          else
            let end_time := add_seconds current_time duration_seconds in
            (mk (<[state_key := end_time]> (active_states self2))
                (<[state_key :=
                     add_seconds current_time cooldown_seconds]>
                   (cooldowns self2))
                (max_concurrent_states self2),
             (true, msg_activated duration_seconds))
      end
  end.

(** [is_state_active] *)
Definition is_state_active (self : t) (session_id platform : str)
    (current_time : Q) : t * bool :=
  let state_key := generate_state_key session_id platform in
  match active_states self !! state_key with
  | None => (self, false)
  | Some end_time =>
      if geb current_time end_time
      then (mk (delete state_key (active_states self))
               (cooldowns self) (max_concurrent_states self), false)
      else (self, true)
  end.

(** [get_remaining_time] *)
Definition get_remaining_time (self : t) (session_id platform : str)
    (current_time : Q) : Z :=
  let state_key := generate_state_key session_id platform in
  match active_states self !! state_key with
  | None => 0
  | Some end_time => Z.max 0 (py_int (end_time - current_time)%Q)
  end.

(** [deactivate_state] *)
Definition deactivate_state (self : t) (session_id platform : str)
    : t * bool :=
  let state_key := generate_state_key session_id platform in
  match active_states self !! state_key with
  | Some _ =>
      (mk (delete state_key (active_states self))
          (cooldowns self) (max_concurrent_states self), true)
  | None => (self, false)
  end.

(** The effect of [get_active_states_info] on the registry, with the
    remaining whole seconds and the end timestamp per key.  The source
    also renders each end timestamp with [datetime.isoformat], which can
    raise; [Snapshot.get_active_states_info_rendered] below gives the
    result with that rendering. *)
Definition get_active_states_info (self : t)
    (current_time cleanup_time : Q) : t * gmap str (Z * Q) :=
  let self1 := _cleanup_expired_states self cleanup_time in
  (self1,
   (λ end_time, (py_int (end_time - current_time)%Q, end_time))
     <$> active_states self1).

(** The registry on which [activate_state] runs its capacity check, for a
    call that passed the cooldown check and the already-active check: the
    entry of [state_key], which is stale if present, is deleted, and
    [_cleanup_expired_states] has run at [cleanup_time]. *)
Definition at_capacity_check (self : t) (state_key : str)
    (cleanup_time : Q) : t :=
  _cleanup_expired_states
    (mk (delete state_key (active_states self)) (cooldowns self)
        (max_concurrent_states self))
    cleanup_time.

(** The number of entries of [active_states] that are unexpired at
    [now]. *)
Definition live_count (self : t) (now : Q) : Z :=
  Z.of_nat (size (filter (λ kv, ¬ expired now kv) (active_states self))).

(** The calls a client can make, each with the clock readings it takes. *)
Inductive op : Type :=
| Activate (session_id platform : str)
    (duration_seconds cooldown_seconds : Z) (current_time cleanup_time : Q)
| IsActive (session_id platform : str) (current_time : Q)
| Remaining (session_id platform : str) (current_time : Q)
| Deactivate (session_id platform : str)
| Snapshot (current_time cleanup_time : Q).

(** The registry after one call. *)
Definition step (self : t) (o : op) : t :=
  match o with
  | Activate s p d c now now' => (activate_state self s p d c now now').1
  | IsActive s p now => (is_state_active self s p now).1
  | Remaining _ _ _ => self
  | Deactivate s p => (deactivate_state self s p).1
  | Snapshot now now' => (get_active_states_info self now now').1
  end.

(** The registry after a sequence of calls. *)
Definition run (self : t) (ops : list op) : t := fold_left step ops self.

(** The four ways [activate_state] returns, each with the condition under
    which it is taken. *)
Inductive activate_case (self : t) (key : str) (d c : Z) (now now' : Q)
  : t * (bool * str) → Prop :=
| case_cooldown e :
    cooldowns self !! key = Some e → (now < e)%Q →
    activate_case self key d c now now'
      (self, (false, msg_cooldown (py_int (e - now)%Q)))
| case_already_active e :
    cooldown_remaining self key now = None →
    active_states self !! key = Some e → (now < e)%Q →
    activate_case self key d c now now'
      (self, (false, msg_already_active (py_int (e - now)%Q)))
| case_capacity :
    cooldown_remaining self key now = None →
    (∀ e, active_states self !! key = Some e → (e <= now)%Q) →
    max_concurrent_states self
      ≤ Z.of_nat (size (active_states (at_capacity_check self key now'))) →
    activate_case self key d c now now'
      (at_capacity_check self key now', (false, msg_capacity))
| case_activated :
    cooldown_remaining self key now = None →
    (∀ e, active_states self !! key = Some e → (e <= now)%Q) →
    Z.of_nat (size (active_states (at_capacity_check self key now')))
      < max_concurrent_states self →
    activate_case self key d c now now'
      (mk (<[key := add_seconds now d]>
             (active_states (at_capacity_check self key now')))
          (<[key := add_seconds now c]>
             (cooldowns (at_capacity_check self key now')))
          (max_concurrent_states self),
       (true, msg_activated d)).

End StateManager.


(** ** The configuration and the event *)

Module Config.

(** The dictionary [ConfigurationManager.get_config()] returns, restricted
    to the keys the embedded functions read.  A key that is absent from the
    dictionary is [None]; [get] is [dict.get(key, default)]. *)
Record t : Type := mk {
  enabled : option bool;
  trigger_keywords : option (list str);
  interactive_item_name : option str;
  sensitivity_level : option Z;
  authorized_users : option (list str);
  admin_only_mode : option bool;
  system_prompt_template : option str
}.

Definition get {A : Type} (field : option A) (default : A) : A :=
  match field with
  | Some v => v
  | None => default
  end.

End Config.

Module Event.

(** The attributes of [AstrMessageEvent] that the embedded functions read
    through [getattr], each with its default already applied. *)
Record t : Type := mk {
  is_at_or_wake_command : bool;
  sender_id : str;
  user_id : str;
  message_str : str;
  unified_msg_origin : str;
  get_platform_name : str
}.

End Event.

(** ** Main: the trigger evaluator and the prompt injection *)

Module Main.

(** [re.sub(r"@[^\s]*", "", message)]: an [@] and the run of non-space
    code points after it are dropped; [in_mention] holds while that run is
    being consumed. *)
Fixpoint remove_at_mentions (in_mention : bool) (s : str) : str :=
  match s with
  | [] => []
  | c :: r =>
      if in_mention then
        if isspace c then c :: remove_at_mentions false r
        else remove_at_mentions true r
      else if (c =? 64)%N then remove_at_mentions true r
      else c :: remove_at_mentions false r
  end.

(** The number of code points before the first [']'] of [s], if any. *)
Fixpoint find_close_bracket (s : str) : option nat :=
  match s with
  | [] => None
  | c :: r =>
      if (c =? 93)%N then Some O
      else match find_close_bracket r with
           | Some n => Some (S n)
           | None => None
           end
  end.

(** The length of the match of [\[CQ:at[^\]]*\]] at the start of [s]. *)
Definition cq_at_match (s : str) : option nat :=
  if prefixb (lit "[CQ:at") s
  then match find_close_bracket (drop 6 s) with
       | Some n => Some (6 + n + 1)%nat
       | None => None
       end
  else None.

(** [re.sub(r"\[CQ:at[^\]]*\]", "", s)]: [skip] code points of the
    current match remain to be dropped. *)
Fixpoint remove_cq_at (skip : nat) (s : str) : str :=
  match s with
  | [] => []
  | c :: r =>
      match skip with
      | S k => remove_cq_at k r
      | O =>
          match cq_at_match s with
          | Some n => remove_cq_at (pred n) r
          | None => c :: remove_cq_at 0 r
          end
      end
  end.

(** [_clean_message_content] *)
Definition _clean_message_content (message : str) : str :=
  let cleaned := remove_at_mentions false message in
  let cleaned := remove_cq_at 0 cleaned in
  strip cleaned.

(** [_check_user_permission] *)
Definition _check_user_permission (user_id : str) (config : Config.t)
    : bool :=
  if Config.get (Config.admin_only_mode config) false then true
  else
    match Config.get (Config.authorized_users config) [] with
    | [] => true
    | authorized_users => bool_decide (user_id ∈ authorized_users)
    end.

(** The reasons of [should_trigger]. *)
Definition reason_not_loaded : str := lit "插件未正确初始化".
Definition reason_disabled : str := lit "插件未启用".
Definition reason_not_at : str := lit "消息未@机器人".
Definition reason_no_permission : str := lit "用户无权限使用此功能".
Definition reason_empty : str := lit "消息内容为空".
Definition reason_matched (keyword : str) : str :=
  lit "匹配关键词: " ++ keyword.
Definition reason_no_match : str := lit "未匹配到触发关键词".

(** [getattr(event, "sender_id", "") or getattr(event, "user_id", "")] *)
Definition event_user_id (event : Event.t) : str :=
  match Event.sender_id event with
  | [] => Event.user_id event
  | _ :: _ => Event.sender_id event
  end.

Section Trigger.

(** [str.lower] of the Python runtime. *)
Variable lower : str → str.

(** The loop over [trigger_keywords]: the first keyword with
    [keyword.lower() in cleaned_message.lower()]. *)
Fixpoint match_keywords (trigger_keywords : list str)
    (cleaned_message : str) : bool * str :=
  match trigger_keywords with
  | [] => (false, reason_no_match)
  | keyword :: rest =>
      if contains (lower keyword) (lower cleaned_message)
      then (true, reason_matched keyword)
      else match_keywords rest cleaned_message
  end.

(** [should_trigger].  [is_loaded] stands for the test [self.is_loaded and
    self.config_manager and self.state_manager]; [config] is the result of
    [self.config_manager.get_config()]. *)
Definition should_trigger (is_loaded : bool) (config : Config.t)
    (event : Event.t) : bool * str :=
  if negb is_loaded then (false, reason_not_loaded)
  else if negb (Config.get (Config.enabled config) false)
  then (false, reason_disabled)
  else if negb (Event.is_at_or_wake_command event)
  then (false, reason_not_at)
  else
    let user_id := event_user_id event in
    if negb (_check_user_permission user_id config)
    then (false, reason_no_permission)
    else
      let message_content := strip (Event.message_str event) in
      match message_content with
      | [] => (false, reason_empty)
      | _ :: _ =>
          let cleaned_message := _clean_message_content message_content in
          match_keywords (Config.get (Config.trigger_keywords config) [])
            cleaned_message
      end.

End Trigger.

(** [str.lower] on strings whose cased code points are ASCII letters. *)
Definition ascii_lower (s : str) : str :=
  map (λ c, if (65 <=? c)%N && (c <=? 90)%N then (c + 32)%N else c) s.

(** *** The prompt injection *)

(** The outcome of [prompt_template.format(item_name=..., sensitivity=...)]:
    the rendered string, an exception ([KeyError], [IndexError] or
    [ValueError]), or a replacement field that goes beyond a plain name (a
    conversion [!], a format specification [:], an attribute [.] or an index
    on one of the two names), whose rendering this model does not
    describe. *)
Inductive format_outcome : Type :=
| Rendered (s : str)
| Raises
| Unmodelled.

(** The text produced so far is put in front of what the rest of the
    template produces. *)
Definition emit (s : str) (o : format_outcome) : format_outcome :=
  match o with
  | Rendered r => Rendered (s ++ r)
  | Raises => Raises
  | Unmodelled => Unmodelled
  end.

(** Code points with a role in a format string. *)
Definition lbrace : char := 123%N.
Definition rbrace : char := 125%N.
Definition ends_field_name (c : char) : bool :=
  ((c =? 125) || (c =? 58) || (c =? 33) || (c =? 91))%N.

(** The first component of a field name: the code points before the first
    dot. *)
Fixpoint first_component (name : str) : str :=
  match name with
  | [] => []
  | c :: r => if (c =? 46)%N then [] else c :: first_component r
  end.

(** The keyword arguments of the call. *)
Definition kwarg (item_name : str) (sensitivity : Z) (name : str)
    : option str :=
  if bool_decide (name = lit "item_name") then Some item_name
  else if bool_decide (name = lit "sensitivity")
  then Some (str_of_int sensitivity)
  else None.

(** [str.format] with the keyword arguments [item_name] and [sensitivity].
    [field] is [None] in literal text and [Some acc] inside a replacement
    field, [acc] being the field name read so far, last code point
    first. *)
Fixpoint format_go (item_name : str) (sensitivity : Z)
    (field : option str) (s : str) {struct s} : format_outcome :=
  match field with
  | None =>
      match s with
      | [] => Rendered []
      | c :: r =>
          if (c =? lbrace)%N then
            match r with
            | [] => Raises
            | c' :: r' =>
                if (c' =? lbrace)%N
                then emit [lbrace] (format_go item_name sensitivity None r')
                else format_go item_name sensitivity (Some []) r
            end
          else if (c =? rbrace)%N then
            match r with
            | [] => Raises
            | c' :: r' =>
                if (c' =? rbrace)%N
                then emit [rbrace] (format_go item_name sensitivity None r')
                else Raises
            end
          else emit [c] (format_go item_name sensitivity None r)
      end
  | Some acc =>
      match s with
      | [] => Raises
      | c :: r =>
          if (c =? lbrace)%N then Raises
          else if ends_field_name c then
            let name := rev acc in
            match kwarg item_name sensitivity (first_component name) with
            | None => Raises
            | Some value =>
                if (c =? rbrace)%N
                   && bool_decide (first_component name = name)
                then emit value (format_go item_name sensitivity None r)
                else Unmodelled
            end
          else format_go item_name sensitivity (Some (c :: acc)) r
      end
  end.

Definition format (template item_name : str) (sensitivity : Z)
    : format_outcome :=
  format_go item_name sensitivity None template.

(** [ProviderRequest], restricted to [system_prompt]. *)
Record ProviderRequest : Type := mkRequest {
  system_prompt : str
}.

(** [before_llm_request].  It returns the registry and the request as the
    call leaves them, and [None] when the template has a replacement field
    this model does not describe.  An exception of [format] is caught by the
    [try] of the source, which leaves the request as it was.  The separator
    of the source, two newlines, is the pair of code points [10; 10]. *)
Definition before_llm_request (is_loaded : bool) (config : Config.t)
    (state_manager : StateManager.t) (event : Event.t)
    (request : ProviderRequest) (current_time : Q)
    : option (StateManager.t * ProviderRequest) :=
  if negb is_loaded then Some (state_manager, request)
  else
    let session_id := Event.unified_msg_origin event in
    let platform := Event.get_platform_name event in
    let '(state_manager, active) :=
      StateManager.is_state_active state_manager session_id platform
        current_time in
    if negb active then Some (state_manager, request)
    else
      let prompt_template :=
        Config.get (Config.system_prompt_template config) [] in
      let item_name :=
        Config.get (Config.interactive_item_name config) (lit "特殊装置") in
      let sensitivity := Config.get (Config.sensitivity_level config) 50 in
      match prompt_template with
      | [] => Some (state_manager, request)
      | _ :: _ =>
          match format prompt_template item_name sensitivity with
          | Rendered injected_prompt =>
              match system_prompt request with
              | [] => Some (state_manager, mkRequest injected_prompt)
              | _ :: _ =>
                  Some (state_manager,
                        mkRequest (injected_prompt ++ [10%N; 10%N]
                                     ++ system_prompt request))
              end
          | Raises => Some (state_manager, request)
          | Unmodelled => None
          end
      end.

(** A template written as a sequence of pieces: literal text and the two
    placeholders. *)
Inductive piece : Type :=
| Text (s : str)
| ItemName
| Sensitivity.

(** The template string a sequence of pieces stands for. *)
Definition piece_source (p : piece) : str :=
  match p with
  | Text s => s
  | ItemName => lit "{item_name}"
  | Sensitivity => lit "{sensitivity}"
  end.

Definition template_of (ps : list piece) : str :=
  concat (map piece_source ps).

(** The substitution of the two values for the placeholders. *)
Definition piece_value (item_name : str) (sensitivity : Z) (p : piece)
    : str :=
  match p with
  | Text s => s
  | ItemName => item_name
  | Sensitivity => str_of_int sensitivity
  end.

Definition substitute (ps : list piece) (item_name : str) (sensitivity : Z)
    : str :=
  concat (map (piece_value item_name sensitivity) ps).

(** No brace occurs in [s]. *)
Definition brace_free (s : str) : Prop := (lbrace ∉ s) ∧ (rbrace ∉ s).

(** Every literal piece is free of braces. *)
Definition plain_pieces (ps : list piece) : Prop :=
  ∀ s, Text s ∈ ps → brace_free s.

End Main.

(** ** The arithmetic of the machine *)

(** The registry above computes on exact rationals.  The source computes on
    doubles: [time.time()] is a double, [current_time + duration_seconds]
    converts the [int] to a double and rounds the sum, and
    [end_time - current_time] rounds the difference.  This module writes the
    three lines of the source on which the rounding bears with the doubles
    of the machine. *)
Module Doubles.

(** [float(n)] for an [int] of at most 53 bits, where the conversion is
    exact; [None] outside, where the conversion rounds or raises. *)
Definition float_of_int (n : Z) : option PrimFloat.float :=
  if (0 <=? n) && (n <=? 2 ^ 53)
  then Some (PrimFloat.of_uint63 (Uint63.of_Z n))
  else if (- 2 ^ 53 <=? n) && (n <? 0)
  then Some (PrimFloat.opp (PrimFloat.of_uint63 (Uint63.of_Z (- n))))
  else None.


(** [end_time = current_time + duration_seconds] of [activate_state]. *)
Definition end_time (current_time : PrimFloat.float) (duration_seconds : Z)
    : option PrimFloat.float :=
  match float_of_int duration_seconds with
  | Some duration => Some (PrimFloat.add current_time duration)
  | None => None
  end.





(** An [int] that the sums of [activate_state] convert to a double; beyond
    the range of doubles the conversion raises [OverflowError], and the
    call returns nothing. *)
Definition converts_to_double (n : Z) : Prop := Z.abs n ≤ 2 ^ 1023.

End Doubles.

(** ** The snapshot with its rendered end times *)

Module Snapshot.
Import StateManager.

Section Rendering.

(** [datetime.fromtimestamp(t).isoformat()] of the Python runtime, in the
    time zone of the machine; [None] when [fromtimestamp] raises, as it
    does for a time outside the years that [datetime] covers. *)
Variable fromtimestamp_isoformat : Q → option str.

(** One entry of the result of [get_active_states_info]. *)
Definition render_entry (current_time end_time : Q) : option (Z * str) :=
  match fromtimestamp_isoformat end_time with
  | Some rendered => Some (py_int (end_time - current_time)%Q, rendered)
  | None => None
  end.

(** [get_active_states_info] with its result as the source builds it: the
    registry after the cleanup, and the mapping from each key to its
    remaining seconds and its rendered end time, or [None] when the
    rendering of an end time raises; the exception leaves the method after
    the cleanup has been done. *)
Definition get_active_states_info_rendered (self : t)
    (current_time cleanup_time : Q) : t * option (gmap str (Z * str)) :=
  let self1 := _cleanup_expired_states self cleanup_time in
  let entries := render_entry current_time <$> active_states self1 in
  (self1,
   if bool_decide (map_Forall (λ _ entry, is_Some entry) entries)
   then Some (omap id entries)
   else None).

End Rendering.

End Snapshot.

(** * Properties *)

(** ** The clock *)

Module ClockFacts.

Lemma ltb_lt (a b : Q) : ltb a b = true ↔ (a < b)%Q.
Proof.
  unfold ltb. rewrite negb_true_iff, <- not_true_iff_false, Qle_bool_iff.
  split; [apply Qnot_le_lt | apply Qlt_not_le].
Qed.

Lemma geb_le (a b : Q) : geb a b = true ↔ (b <= a)%Q.
Proof. unfold geb. apply Qle_bool_iff. Qed.

Lemma ltb_geb (a b : Q) : ltb a b = negb (geb a b).
Proof. reflexivity. Qed.

Lemma ltb_false_le (a b : Q) : ltb a b = false ↔ (b <= a)%Q.
Proof. rewrite ltb_geb, negb_false_iff. apply geb_le. Qed.

Lemma geb_false_lt (a b : Q) : geb a b = false ↔ (a < b)%Q.
Proof. rewrite <- ltb_lt, ltb_geb, negb_true_iff. reflexivity. Qed.

(** [int] is the identity on integers. *)
Lemma py_int_inject_Z (z : Z) : py_int (inject_Z z) = z.
Proof.
  unfold py_int. destruct (Qle_bool 0 (inject_Z z));
    [apply Qfloor_Z | apply Qceiling_Z].
Qed.

Lemma py_int_comp (x y : Q) : (x == y)%Q → py_int x = py_int y.
Proof.
  intros E. unfold py_int.
  rewrite (Qleb_comp 0%Q 0%Q (Qeq_refl 0%Q) x y E).
  destruct (Qle_bool 0 y); [apply Qfloor_comp | apply Qceiling_comp]; exact E.
Qed.

(** Whole seconds left until [t + n], read at [t]. *)
Lemma py_int_add_seconds (t : Q) (n : Z) :
  py_int (add_seconds t n - t)%Q = n.
Proof.
  rewrite <- (py_int_inject_Z n) at 2. apply py_int_comp.
  unfold add_seconds. ring.
Qed.

(** [int] of a non-negative number is non-negative. *)
Lemma py_int_nonneg (x : Q) : (0 <= x)%Q → 0 ≤ py_int x.
Proof.
  intros H. unfold py_int.
  destruct (Qle_bool 0 x) eqn:E.
  - change 0 with (Qfloor 0%Q). apply Qfloor_resp_le, H.
  - apply Qle_bool_iff in H. congruence.
Qed.

Lemma add_seconds_lt (t : Q) (n : Z) : 0 < n → (t < add_seconds t n)%Q.
Proof.
  intros H. unfold add_seconds.
  assert (0 < inject_Z n)%Q by (change 0%Q with (inject_Z 0); now rewrite <- Zlt_Qlt).
  lra.
Qed.

End ClockFacts.

(** ** The registry *)

Module StateManagerFacts.
Import ClockFacts StateManager.

Lemma not_expired_lt (now : Q) (kv : str * Q) :
  ¬ expired now kv ↔ (now < kv.2)%Q.
Proof.
  unfold expired. rewrite not_true_iff_false. apply geb_false_lt.
Qed.

Lemma expired_le (now : Q) (kv : str * Q) : expired now kv ↔ (kv.2 <= now)%Q.
Proof. apply geb_le. Qed.

(** What [_cleanup_expired_states] keeps. *)
Lemma lookup_cleanup (m : gmap str Q) (now : Q) (k : str) (e : Q) :
  filter (λ kv, ¬ expired now kv) m !! k = Some e
  ↔ m !! k = Some e ∧ (now < e)%Q.
Proof.
  rewrite map_lookup_filter_Some. simpl.
  rewrite (not_expired_lt now (k, e)). reflexivity.
Qed.

Lemma cooldown_remaining_Some self key now r :
  cooldown_remaining self key now = Some r
  ↔ ∃ e, cooldowns self !! key = Some e ∧ (now < e)%Q
         ∧ r = py_int (e - now)%Q.
Proof.
  unfold cooldown_remaining. destruct (cooldowns self !! key) as [e|].
  - destruct (ltb now e) eqn:L.
    + apply ltb_lt in L. split.
      * intros [= <-]. eauto.
      * intros (e' & [= <-] & _ & ->). reflexivity.
    + apply ltb_false_le in L. split; [discriminate|].
      intros (e' & [= <-] & L' & _). lra.
  - split; [discriminate | intros (e' & [=] & _)].
Qed.

Lemma cooldown_remaining_None self key now :
  cooldown_remaining self key now = None
  ↔ ∀ e, cooldowns self !! key = Some e → (e <= now)%Q.
Proof.
  unfold cooldown_remaining. destruct (cooldowns self !! key) as [e|].
  - destruct (ltb now e) eqn:L.
    + apply ltb_lt in L. split; [discriminate|].
      intros H. specialize (H e eq_refl). lra.
    + apply ltb_false_le in L. split; [|reflexivity].
      intros _ e' [= <-]. exact L.
  - split; [intros _ e' [=] | reflexivity].
Qed.

Lemma self_eta (self : t) :
  mk (active_states self) (cooldowns self) (max_concurrent_states self)
  = self.
Proof. destruct self; reflexivity. Qed.

Lemma activate_state_case self sid plat d c now now' :
  activate_case self (generate_state_key sid plat) d c now now'
    (activate_state self sid plat d c now now').
Proof.
  unfold activate_state. set (key := generate_state_key sid plat).
  destruct (cooldown_remaining self key now) as [r|] eqn:CD.
  { apply cooldown_remaining_Some in CD as (e & He & Hlt & ->).
    by apply case_cooldown. }
  destruct (active_states self !! key) as [e|] eqn:A.
  - destruct (ltb now e) eqn:L.
    + apply ltb_lt in L. by eapply case_already_active.
    + apply ltb_false_le in L.
      change (_cleanup_expired_states _ now')
        with (at_capacity_check self key now').
      change (max_concurrent_states (at_capacity_check self key now'))
        with (max_concurrent_states self).
      destruct (Z.geb_spec
                  (Z.of_nat (size (active_states
                                     (at_capacity_check self key now'))))
                  (max_concurrent_states self))
        as [G|G].
      * apply case_capacity; [done| |done].
        intros e' He'. rewrite A in He'. by injection He' as <-.
      * apply case_activated; [done| |done].
        intros e' He'. rewrite A in He'. by injection He' as <-.
  - assert (E : at_capacity_check self key now'
                = _cleanup_expired_states self now').
    { unfold at_capacity_check. by rewrite delete_id, self_eta. }
    rewrite <- E.
    change (max_concurrent_states (at_capacity_check self key now'))
      with (max_concurrent_states self).
    destruct (Z.geb_spec
                (Z.of_nat (size (active_states
                                   (at_capacity_check self key now'))))
                (max_concurrent_states self))
      as [G|G].
    + apply case_capacity; [done| |done].
      intros e' He'. by rewrite A in He'.
    + apply case_activated; [done| |done].
      intros e' He'. by rewrite A in He'.
Qed.

End StateManagerFacts.

Module StateManagerSpec.
Import ClockFacts StateManager StateManagerFacts.

(** What a successful [activate_state] leaves behind. *)
Lemma activate_state_true_inv self sid plat d c now now' self' msg :
  activate_state self sid plat d c now now' = (self', (true, msg)) →
  let key := generate_state_key sid plat in
  self' = mk (<[key := add_seconds now d]>
                (active_states (at_capacity_check self key now')))
             (<[key := add_seconds now c]>
                (cooldowns (at_capacity_check self key now')))
             (max_concurrent_states self)
  ∧ msg = msg_activated d
  ∧ Z.of_nat (size (active_states (at_capacity_check self key now')))
    < max_concurrent_states self.
Proof.
  intros H key.
  pose proof (activate_state_case self sid plat d c now now') as C.
  rewrite H in C. inversion C; subst; auto.
Qed.



(** The first check of [activate_state]. *)
Lemma activate_state_live_cooldown self sid plat d c now now' cooldown_end :
  cooldowns self !! generate_state_key sid plat = Some cooldown_end →
  (now < cooldown_end)%Q →
  activate_state self sid plat d c now now'
    = (self, (false, msg_cooldown (py_int (cooldown_end - now)%Q))).
Proof.
  intros Hcd Hlt. unfold activate_state, cooldown_remaining. rewrite Hcd.
  apply ltb_lt in Hlt. rewrite Hlt. reflexivity.
Qed.

(** C3. While the cooldown entry of a key is live ([now] is before its end),
    [activate_state] on that key fails with the cooldown message, which
    carries the remaining whole seconds, and leaves the registry as it is.
    Nothing is assumed about [active_states]: the answer is the same
    whether the key has a live entry there, a stale one or none, so the
    cooldown check comes before the already-active check. *)
Theorem activate_state_cooling_down :
  ∀ (self : t) (sid plat : str) (d c : Z) (now now' cooldown_end : Q),
    cooldowns self !! generate_state_key sid plat = Some cooldown_end →
    (now < cooldown_end)%Q →
    activate_state self sid plat d c now now'
      = (self, (false, msg_cooldown (py_int (cooldown_end - now)%Q)))
    ∧ 0 ≤ py_int (cooldown_end - now)%Q
    ∧ (∀ remaining remaining',
         msg_cooldown remaining ≠ msg_already_active remaining').
Proof.
  intros self sid plat d c now now' cooldown_end Hcd Hlt.
  split; [|split].
  - by apply activate_state_live_cooldown.
  - apply py_int_nonneg. lra.
  - intros r r'. unfold msg_cooldown, msg_already_active. discriminate.
Qed.


Lemma activate_state_cooling_down_witness :
  let self := (activate_state (init 1) (lit "A") [] 180 30 1000%Q 1000%Q).1 in
  activate_state self (lit "A") [] 180 30 1001%Q 1001%Q
    = (self, (false, msg_cooldown (py_int (add_seconds 1000%Q 30 - 1001)%Q)))
  ∧ 0 ≤ py_int (add_seconds 1000%Q 30 - 1001)%Q
  ∧ (∀ remaining remaining',
       msg_cooldown remaining ≠ msg_already_active remaining').
Proof.
  apply (activate_state_cooling_down
           (activate_state (init 1) (lit "A") [] 180 30 1000%Q 1000%Q).1
           (lit "A") [] 180 30 1001%Q 1001%Q (add_seconds 1000%Q 30)).
  - vm_compute. reflexivity.
  - vm_compute. reflexivity.
Defined.

(** C4. [is_state_active] returns [True] exactly when [active_states] has an
    entry for the key whose end time is after [now], and it then leaves the
    registry as it is; when the entry exists and [now] has reached its end
    time, the call deletes the entry and returns [False].  In particular,
    once [d] seconds have passed since a successful [activate_state(key,
    d, c)], the call returns [False] and the entry is gone afterwards. *)
Theorem is_state_active_iff_unexpired :
  ∀ (self : t) (sid plat : str) (now : Q),
    ((is_state_active self sid plat now).2 = true
     ↔ ∃ e, active_states self !! generate_state_key sid plat = Some e
            ∧ (now < e)%Q)
    ∧ ((is_state_active self sid plat now).2 = true →
       (is_state_active self sid plat now).1 = self)
    ∧ (∀ e, active_states self !! generate_state_key sid plat = Some e →
            (e <= now)%Q →
            is_state_active self sid plat now
              = (mk (delete (generate_state_key sid plat)
                       (active_states self))
                    (cooldowns self) (max_concurrent_states self), false))
    ∧ (∀ self0 d c t0 t0' msg,
         activate_state self0 sid plat d c t0 t0' = (self, (true, msg)) →
         (add_seconds t0 d <= now)%Q →
         (is_state_active self sid plat now).2 = false
         ∧ active_states (is_state_active self sid plat now).1
             !! generate_state_key sid plat = None).
Proof.
  intros self sid plat now. set (key := generate_state_key sid plat).
  assert (E : ∀ e, active_states self !! key = Some e → (e <= now)%Q →
              is_state_active self sid plat now
              = (mk (delete key (active_states self))
                    (cooldowns self) (max_concurrent_states self), false)).
  { intros e He Hle. unfold is_state_active. fold key. rewrite He.
    apply geb_le in Hle. by rewrite Hle. }
  split; [|split; [|split]].
  - unfold is_state_active. fold key.
    destruct (active_states self !! key) as [e|] eqn:A.
    + destruct (geb now e) eqn:G; simpl.
      * apply geb_le in G. split; [discriminate|].
        intros (e' & [= <-] & Hlt). lra.
      * apply geb_false_lt in G. split; [eauto | reflexivity].
    + simpl. split; [discriminate | intros (e' & [=] & _)].
  - unfold is_state_active. fold key.
    destruct (active_states self !! key) as [e|]; [|reflexivity].
    destruct (geb now e); [discriminate | reflexivity].
  - exact E.
  - intros self0 d c t0 t0' msg Hact Hle.
    pose proof Hact as Hinv.
    apply activate_state_true_inv in Hinv as (Hself & _ & _). fold key in Hself.
    assert (A : active_states self !! key = Some (add_seconds t0 d)).
    { rewrite Hself. simpl. apply lookup_insert_eq. }
    rewrite (E _ A Hle). simpl. split; [reflexivity | apply lookup_delete_eq].
Qed.

Lemma is_state_active_iff_unexpired_witness :
  let self := (activate_state (init 1) (lit "A") [] 180 30 1000%Q 1000%Q).1 in
  (is_state_active self (lit "A") [] 1180%Q).2 = false
  ∧ active_states (is_state_active self (lit "A") [] 1180%Q).1
      !! generate_state_key (lit "A") [] = None.
Proof.
  refine (proj2 (proj2 (proj2
    (is_state_active_iff_unexpired
       (activate_state (init 1) (lit "A") [] 180 30 1000%Q 1000%Q).1
       (lit "A") [] 1180%Q)))
    (init 1) 180 30 1000%Q 1000%Q
    (activate_state (init 1) (lit "A") [] 180 30 1000%Q 1000%Q).2.2 _ _).
  - vm_compute. reflexivity.
  - vm_compute. discriminate.
Defined.



(** C10. A failed [activate_state] adds nothing: every entry of
    [active_states] and of [cooldowns] after the call was there before it,
    with the same end time, so that no cooldown is started or extended for
    any key; the cap is unchanged; and an entry that is gone was expired,
    at the clock reading of the call ([now], for the stale entry of the
    key itself) or at the one of the cleanup ([now']). *)
Theorem activate_state_failure_adds_nothing :
  ∀ (self : t) (sid plat : str) (d c : Z) (now now' : Q) (self' : t)
    (msg : str),
    activate_state self sid plat d c now now' = (self', (false, msg)) →
    (∀ k e, active_states self' !! k = Some e →
            active_states self !! k = Some e)
    ∧ (∀ k e, cooldowns self' !! k = Some e → cooldowns self !! k = Some e)
    ∧ max_concurrent_states self' = max_concurrent_states self
    ∧ (∀ k e, active_states self !! k = Some e →
              active_states self' !! k = None →
              (e <= now)%Q ∨ (e <= now')%Q)
    ∧ (∀ k e, cooldowns self !! k = Some e → cooldowns self' !! k = None →
              (e <= now')%Q).
Proof.
  intros self sid plat d c now now' self' msg H.
  pose proof (activate_state_case self sid plat d c now now') as C.
  rewrite H in C. set (key := generate_state_key sid plat) in *.
  inversion C as [e He Hlt | e Hcd He Hlt | Hcd Hstale Hcap | ]; subst.
  - repeat split; auto; intros k e' H1 H2; congruence.
  - repeat split; auto; intros k e' H1 H2; congruence.
  - unfold at_capacity_check, _cleanup_expired_states. simpl.
    repeat split.
    + intros k e [Hk _]%lookup_cleanup.
      apply lookup_delete_Some in Hk as [_ Hk]. exact Hk.
    + intros k e [Hk _]%lookup_cleanup. exact Hk.
    + intros k e Hk Hgone.
      destruct (decide (key = k)) as [<-|Hne]; [left; by apply Hstale|].
      right. destruct (Qlt_le_dec now' e) as [Hlt|Hle]; [|exact Hle].
      assert (filter (λ kv, ¬ expired now' kv)
                (delete key (active_states self)) !! k = Some e) as Hin.
      { apply lookup_cleanup. split; [|exact Hlt].
        by rewrite lookup_delete_ne. }
      congruence.
    + intros k e Hk Hgone.
      destruct (Qlt_le_dec now' e) as [Hlt|Hle]; [|exact Hle].
      assert (filter (λ kv, ¬ expired now' kv) (cooldowns self) !! k
              = Some e) as Hin.
      { apply lookup_cleanup. by split. }
      congruence.
Qed.

Lemma activate_state_failure_adds_nothing_witness :
  let self := (activate_state (init 1) (lit "A") [] 180 30 1000%Q 1000%Q).1 in
  let self' := (activate_state self (lit "B") [] 180 30 1040%Q 1040%Q).1 in
  (∀ k e, active_states self' !! k = Some e →
          active_states self !! k = Some e)
  ∧ (∀ k e, cooldowns self' !! k = Some e → cooldowns self !! k = Some e)
  ∧ max_concurrent_states self' = max_concurrent_states self
  ∧ (∀ k e, active_states self !! k = Some e →
            active_states self' !! k = None →
            (e <= 1040)%Q ∨ (e <= 1040)%Q)
  ∧ (∀ k e, cooldowns self !! k = Some e → cooldowns self' !! k = None →
            (e <= 1040)%Q).
Proof.
  apply (activate_state_failure_adds_nothing
           (activate_state (init 1) (lit "A") [] 180 30 1000%Q 1000%Q).1
           (lit "B") [] 180 30 1040%Q 1040%Q _
           (activate_state
              (activate_state (init 1) (lit "A") [] 180 30 1000%Q 1000%Q).1
              (lit "B") [] 180 30 1040%Q 1040%Q).2.2).
  vm_compute. reflexivity.
Defined.

(** *** The capacity invariant *)

(** The live entries are among the entries. *)
Lemma live_count_le_size self now :
  live_count self now ≤ Z.of_nat (size (active_states self)).
Proof.
  unfold live_count. apply inj_le, map_subseteq_size, map_filter_subseteq.
Qed.

(** Every finite set of end times has a clock reading before all of them. *)
Lemma before_all_entries (m : gmap str Q) :
  ∃ t : Q, ∀ k e, m !! k = Some e → (t < e)%Q.
Proof.
  induction m as [|k e m Hk _ [t Ht]] using map_first_key_ind.
  - exists 0%Q. intros k e H. by rewrite lookup_empty in H.
  - exists (Qmin t (e - 1)). intros k' e' H.
    pose proof (Q.le_min_l t (e - 1)). pose proof (Q.le_min_r t (e - 1)).
    apply lookup_insert_Some in H as [[_ <-] | [_ H]].
    + lra.
    + specialize (Ht _ _ H). lra.
Qed.

(** At a clock reading before every end time all entries are live. *)
Lemma live_count_early self :
  ∃ t, live_count self t = Z.of_nat (size (active_states self)).
Proof.
  destruct (before_all_entries (active_states self)) as [t Ht].
  exists t. unfold live_count. f_equal. f_equal.
  apply map_filter_id. intros k e H. apply not_expired_lt. simpl. eauto.
Qed.

(** The invariant in terms of the size of [active_states]. *)
Lemma within_capacity_size self :
  (∀ now, live_count self now ≤ max_concurrent_states self)
  ↔ Z.of_nat (size (active_states self)) ≤ max_concurrent_states self.
Proof.
  split.
  - intros H. destruct (live_count_early self) as [t <-]. apply H.
  - intros H now. pose proof (live_count_le_size self now). lia.
Qed.

(** No call changes the cap. *)
Lemma step_max self o :
  max_concurrent_states (step self o) = max_concurrent_states self.
Proof.
  destruct o as [s p d c now now'|s p now|s p now|s p|now now']; simpl.
  - pose proof (activate_state_case self s p d c now now') as C.
    by inversion C.
  - unfold is_state_active.
    destruct (active_states self !! generate_state_key s p) as [e|];
      [destruct (geb now e)|]; reflexivity.
  - reflexivity.
  - unfold deactivate_state.
    by destruct (active_states self !! generate_state_key s p).
  - reflexivity.
Qed.

(** Every call keeps the size of [active_states] within the cap. *)
Lemma step_size self o :
  Z.of_nat (size (active_states self)) ≤ max_concurrent_states self →
  Z.of_nat (size (active_states (step self o)))
    ≤ max_concurrent_states self.
Proof.
  intros Inv.
  assert (Del : ∀ k, Z.of_nat (size (delete k (active_states self)))
                     ≤ max_concurrent_states self).
  { intros k.
    pose proof (map_subseteq_size _ _ (delete_subseteq (active_states self) k)).
    lia. }
  assert (Cap : ∀ k now',
            Z.of_nat (size (active_states (at_capacity_check self k now')))
            ≤ max_concurrent_states self).
  { intros k now'. unfold at_capacity_check. simpl.
    pose proof (map_subseteq_size _ _
                  (map_filter_subseteq (λ kv, ¬ expired now' kv)
                     (delete k (active_states self)))).
    specialize (Del k). lia. }
  destruct o as [s p d c now now'|s p now|s p now|s p|now now'];
    unfold step.
  - pose proof (activate_state_case self s p d c now now') as C.
    inversion C as [e He Hlt Heq | e Hcd He Hlt Heq | Hcd Hstale Hcap Heq
                   | Hcd Hstale Hlt Heq];
      [exact Inv | exact Inv | apply Cap |].
    cbn [fst active_states].
    unfold at_capacity_check in Hlt. simpl in Hlt.
    rewrite map_size_insert.
    destruct (filter (λ kv, ¬ expired now' kv)
                (delete (generate_state_key s p) (active_states self))
                !! generate_state_key s p); simpl; lia.
  - unfold is_state_active.
    destruct (active_states self !! generate_state_key s p) as [e|];
      [destruct (geb now e)|]; simpl; auto.
  - exact Inv.
  - unfold deactivate_state.
    destruct (active_states self !! generate_state_key s p); simpl; auto.
  - simpl.
    pose proof (map_subseteq_size _ _
                  (map_filter_subseteq (λ kv, ¬ expired now' kv)
                     (active_states self))).
    lia.
Qed.

Lemma run_size ops : ∀ self,
  Z.of_nat (size (active_states self)) ≤ max_concurrent_states self →
  Z.of_nat (size (active_states (run self ops)))
    ≤ max_concurrent_states self
  ∧ max_concurrent_states (run self ops) = max_concurrent_states self.
Proof.
  induction ops as [|o ops IH]; intros self Inv; [done|].
  unfold run. simpl. fold (run (step self o) ops).
  destruct (IH (step self o)) as [IH1 IH2].
  { rewrite step_max. by apply step_size. }
  rewrite step_max in IH1, IH2. done.
Qed.

(** C2. With a cap [0 <= max_concurrent_states]: (1) whatever calls are
    made on a new registry, with whatever clock readings, the number of
    entries of [active_states] that are live at any instant is at most the
    cap; (2) each single call preserves that property, from any registry
    that has it; (3) an [activate_state] that gets past the cooldown check
    and the already-active check, and finds, after the expired entries are
    purged, as many entries as the cap or more, fails with the capacity
    message and returns the purged registry. *)
Theorem active_states_within_capacity :
  ∀ max : Z,
    0 ≤ max →
    (∀ (ops : list op) (now : Q), live_count (run (init max) ops) now ≤ max)
    ∧ (∀ (self : t) (o : op),
         max_concurrent_states self = max →
         (∀ now, live_count self now ≤ max) →
         ∀ now, live_count (step self o) now ≤ max)
    ∧ (∀ (self : t) (sid plat : str) (d c : Z) (now now' : Q),
         max_concurrent_states self = max →
         cooldown_remaining self (generate_state_key sid plat) now = None →
         (∀ e, active_states self !! generate_state_key sid plat = Some e →
               (e <= now)%Q) →
         max ≤ Z.of_nat
                 (size (active_states
                          (at_capacity_check self
                             (generate_state_key sid plat) now'))) →
         activate_state self sid plat d c now now'
         = (at_capacity_check self (generate_state_key sid plat) now',
            (false, msg_capacity))).
Proof.
  intros max Hmax. split; [|split].
  - intros ops now.
    destruct (run_size ops (init max)) as [Hsz _].
    { simpl. rewrite map_size_empty. exact Hmax. }
    pose proof (live_count_le_size (run (init max) ops) now).
    simpl in Hsz. lia.
  - intros self o <- Inv now.
    apply within_capacity_size in Inv.
    pose proof (step_size self o Inv).
    pose proof (live_count_le_size (step self o) now). lia.
  - intros self sid plat d c now now' <- Hcd Hstale Hcap.
    pose proof (activate_state_case self sid plat d c now now') as C.
    inversion C as [e He Hlt | e _ He Hlt | | _ _ Hlt].
    + apply cooldown_remaining_None with (e := e) in Hcd; [lra | done].
    + specialize (Hstale e He). lra.
    + reflexivity.
    + lia.
Qed.

Lemma active_states_within_capacity_witness :
  (∀ (ops : list op) (now : Q), live_count (run (init 1) ops) now ≤ 1)
  ∧ activate_state
      (activate_state (init 1) (lit "A") [] 180 30 1000%Q 1000%Q).1
      (lit "B") [] 180 30 1040%Q 1040%Q
    = (at_capacity_check
         (activate_state (init 1) (lit "A") [] 180 30 1000%Q 1000%Q).1
         (generate_state_key (lit "B") []) 1040%Q,
       (false, msg_capacity)).
Proof.
  destruct (active_states_within_capacity 1 ltac:(lia)) as (H1 & _ & H3).
  split; [exact H1|].
  apply H3.
  - vm_compute. reflexivity.
  - vm_compute. reflexivity.
  - intros e He. vm_compute in He. discriminate He.
  - vm_compute. discriminate.
Defined.

End StateManagerSpec.

(** ** Session keys *)

Module SessionKey.
Import StateManager.

(** Two lists that agree up to the first occurrence of [x] in each. *)
Lemma split_at_first (x : N) (p1 : list N) :
  ∀ p2 s1 s2,
    x ∉ p1 → x ∉ p2 → p1 ++ x :: s1 = p2 ++ x :: s2 → p1 = p2 ∧ s1 = s2.
Proof.
  induction p1 as [|a p1 IH]; intros [|b p2] s1 s2 H1 H2 E; simpl in E.
  - by injection E.
  - injection E as -> _. exfalso. apply H2. by left.
  - injection E as -> _. exfalso. apply H1. by left.
  - injection E as -> E.
    apply not_elem_of_cons in H1 as [_ H1].
    apply not_elem_of_cons in H2 as [_ H2].
    destruct (IH p2 s1 s2 H1 H2 E) as [-> ->]. done.
Qed.

(** C8, counterexample. Two distinct (platform, session) pairs with the same
    key: platform [a] with session [b_c], and platform [a_b] with session
    [c]. *)
Lemma generate_state_key_collision :
  (lit "a", lit "b_c") ≠ (lit "a_b", lit "c")
  ∧ generate_state_key (lit "b_c") (lit "a")
    = generate_state_key (lit "c") (lit "a_b").
Proof. split; [discriminate | reflexivity]. Qed.

(** C8, as amended. Two distinct (platform, session) pairs have distinct
    keys when both platform identifiers are non-empty and contain no
    underscore, and also when the two pairs have the same platform
    identifier. *)
Theorem generate_state_key_injective :
  ∀ (p1 s1 p2 s2 : str),
    (p1, s1) ≠ (p2, s2) →
    (p1 ≠ [] ∧ p2 ≠ [] ∧ (95%N ∉ p1) ∧ (95%N ∉ p2)) ∨ p1 = p2 →
    generate_state_key s1 p1 ≠ generate_state_key s2 p2.
Proof.
  intros p1 s1 p2 s2 Hne [(N1 & N2 & U1 & U2) | ->] E; apply Hne.
  - unfold generate_state_key in E.
    destruct p1 as [|a p1]; [done|]. destruct p2 as [|b p2]; [done|].
    change (lit "_") with [95%N] in E.
    change ((a :: p1) ++ 95%N :: s1 = (b :: p2) ++ 95%N :: s2) in E.
    destruct (split_at_first _ _ _ _ _ U1 U2 E) as [-> ->]. done.
  - unfold generate_state_key in E. destruct p2 as [|b p2].
    + by rewrite E.
    + apply app_inv_head in E. apply app_inv_head in E. by rewrite E.
Qed.

Lemma generate_state_key_injective_witness :
  generate_state_key (lit "group_1") (lit "aiocqhttp")
  ≠ generate_state_key (lit "1") (lit "telegram").
Proof.
  apply (generate_state_key_injective
           (lit "aiocqhttp") (lit "group_1") (lit "telegram") (lit "1")).
  - discriminate.
  - left. repeat split; try discriminate;
      apply (bool_decide_unpack _); vm_compute; exact I.
Defined.

End SessionKey.

(** ** Strings *)

Module PyStrFacts.

Lemma prefixb_spec (p : str) : ∀ s,
  prefixb p s = true ↔ ∃ post, s = p ++ post.
Proof.
  induction p as [|a p IH]; intros s; simpl.
  - split; [intros _; by exists s | done].
  - destruct s as [|b s].
    + split; [discriminate | intros [post [=]]].
    + rewrite andb_true_iff, N.eqb_eq, IH. split.
      * intros [-> [post ->]]. by exists post.
      * intros [post [= -> ->]]. eauto.
Qed.

(** [contains] decides the substring relation. *)
Lemma contains_spec (sub : str) : ∀ s,
  contains sub s = true ↔ occurs_in sub s.
Proof.
  unfold occurs_in.
  induction s as [|b s IH]; simpl; rewrite orb_true_iff, prefixb_spec.
  - split.
    + intros [[post E] | [=]]. by exists [], post.
    + intros (pre & post & E). left.
      destruct pre; [by exists post | discriminate].
  - rewrite IH. split.
    + intros [[post E] | (pre & post & ->)].
      * by exists [], post.
      * by exists (b :: pre), post.
    + intros ([|a pre] & post & E).
      * left. by exists post.
      * right. injection E as -> ->. by exists pre, post.
Qed.

Lemma contains_false (sub s : str) :
  contains sub s = false ↔ ¬ occurs_in sub s.
Proof. rewrite <- contains_spec. symmetry. apply not_true_iff_false. Qed.

End PyStrFacts.

(** ** The trigger evaluator *)

Module TriggerSpec.
Import PyStrFacts Main.

Section WithLower.

Variable lower : str → str.

(** The loop returns at the first keyword that matches. *)
Lemma match_keywords_first (before : list str) :
  ∀ first after cleaned,
    (∀ k, k ∈ before → contains (lower k) (lower cleaned) = false) →
    contains (lower first) (lower cleaned) = true →
    match_keywords lower (before ++ first :: after) cleaned
    = (true, reason_matched first).
Proof.
  induction before as [|k before IH]; intros first after cleaned Hb Hf;
    simpl.
  - by rewrite Hf.
  - rewrite (Hb k) by (by left). apply IH; [|done].
    intros k' Hk'. apply Hb. by right.
Qed.

(** The loop fails exactly when no keyword matches. *)
Lemma match_keywords_none (keywords : list str) (cleaned : str) :
  (∀ k, k ∈ keywords → contains (lower k) (lower cleaned) = false) →
  match_keywords lower keywords cleaned = (false, reason_no_match).
Proof.
  induction keywords as [|k keywords IH]; intros H; simpl; [done|].
  rewrite (H k) by (by left). apply IH. intros k' Hk'. apply H. by right.
Qed.

(** The two shapes of the result of the loop. *)
Lemma match_keywords_cases (keywords : list str) (cleaned : str) :
  (match_keywords lower keywords cleaned = (false, reason_no_match)
   ∧ ∀ k, k ∈ keywords → contains (lower k) (lower cleaned) = false)
  ∨ (∃ k, k ∈ keywords ∧ contains (lower k) (lower cleaned) = true
          ∧ match_keywords lower keywords cleaned = (true, reason_matched k)).
Proof.
  induction keywords as [|k keywords IH]; simpl.
  - left. split; [done|]. intros k Hk. by apply elem_of_nil in Hk.
  - destruct (contains (lower k) (lower cleaned)) eqn:E.
    + right. exists k. split; [by left | done].
    + destruct IH as [[IH1 IH2] | (k' & Hk' & Hc & IH)].
      * left. split; [done|].
        intros k' [-> | Hk']%elem_of_cons; [done | by apply IH2].
      * right. exists k'. split; [by right | done].
Qed.

(** [should_trigger] once the plugin is loaded and enabled, the message is
    addressed to the bot and the sender is permitted. *)
Lemma should_trigger_after_checks (config : Config.t) (event : Event.t) :
  Config.get (Config.enabled config) false = true →
  Event.is_at_or_wake_command event = true →
  _check_user_permission (event_user_id event) config = true →
  should_trigger lower true config event
  = match strip (Event.message_str event) with
    | [] => (false, reason_empty)
    | _ :: _ =>
        match_keywords lower
          (Config.get (Config.trigger_keywords config) [])
          (_clean_message_content (strip (Event.message_str event)))
    end.
Proof.
  intros He Ha Hp. unfold should_trigger. by rewrite He, Ha, Hp.
Qed.

End WithLower.

(** C6. Once the loaded, enabled, addressed, permission and non-empty
    checks have passed, [should_trigger] fires exactly when, for some
    configured keyword, the lower-cased keyword is a substring (a
    contiguous run, with anything before and after it) of the lower-cased
    cleaned message; the reason then names the first such keyword in
    configured order; and when no keyword matches the reason is the
    no-match one. *)
Theorem should_trigger_keyword_match :
  ∀ (lower : str → str) (config : Config.t) (event : Event.t),
    Config.get (Config.enabled config) false = true →
    Event.is_at_or_wake_command event = true →
    _check_user_permission (event_user_id event) config = true →
    strip (Event.message_str event) ≠ [] →
    let cleaned := _clean_message_content (strip (Event.message_str event)) in
    let keywords := Config.get (Config.trigger_keywords config) [] in
    let matches k := occurs_in (lower k) (lower cleaned) in
    ((should_trigger lower true config event).1 = true
     ↔ ∃ k, k ∈ keywords ∧ matches k)
    ∧ (∀ before first after,
         keywords = before ++ first :: after →
         (∀ k, k ∈ before → ¬ matches k) →
         matches first →
         should_trigger lower true config event
         = (true, reason_matched first))
    ∧ ((∀ k, k ∈ keywords → ¬ matches k) →
       should_trigger lower true config event = (false, reason_no_match)).
Proof.
  intros lower config event He Ha Hp Hne cleaned keywords matches.
  rewrite (should_trigger_after_checks lower config event He Ha Hp).
  destruct (strip (Event.message_str event)) as [|c content] eqn:S; [done|].
  fold cleaned keywords. split; [|split].
  - destruct (match_keywords_cases lower keywords cleaned)
      as [[E Hnone] | (k & Hk & Hc & E)]; rewrite E; simpl.
    + split; [discriminate|]. intros (k & Hk & Hm).
      apply contains_spec in Hm. rewrite (Hnone k Hk) in Hm. discriminate.
    + split; [|done]. intros _. exists k. split; [done|].
      by apply contains_spec.
  - intros before first after -> Hb Hf.
    apply match_keywords_first.
    + intros k Hk. apply contains_false. by apply Hb.
    + by apply contains_spec.
  - intros Hnone. apply match_keywords_none.
    intros k Hk. apply contains_false. by apply Hnone.
Qed.

Lemma should_trigger_keyword_match_witness :
  let config :=
    Config.mk (Some true) (Some [lit "td"; lit "control"; lit "控制"])
      None None None None None in
  let event :=
    Event.mk true [] [] (lit "@bot xCONTROLLERx 请开始控制吧")
      (lit "session") (lit "platform") in
  should_trigger ascii_lower true config event
  = (true, reason_matched (lit "control")).
Proof.
  intros config event.
  pose proof (should_trigger_keyword_match ascii_lower config event
                eq_refl eq_refl eq_refl) as H.
  cbv zeta in H. destruct H as (_ & H & _).
  - vm_compute. discriminate.
  - apply (H [lit "td"] (lit "control") [lit "控制"]).
    + reflexivity.
    + intros k Hk. apply list_elem_of_singleton in Hk as ->.
      apply contains_false. vm_compute. reflexivity.
    + apply contains_spec. vm_compute. reflexivity.
Defined.

(** C7, counterexample. The message [@bot] is empty once the mention is
    removed, yet [should_trigger] does not answer with the empty-message
    reason: the message passes the emptiness check, which looks at the text
    before the mention is removed, and fails in the keyword loop with the
    no-match reason. *)
Lemma should_trigger_mention_only :
  let config :=
    Config.mk (Some true) (Some [lit "td"]) None None None None None in
  let event :=
    Event.mk true [] [] (lit "@bot") (lit "session") (lit "platform") in
  _clean_message_content (strip (Event.message_str event)) = []
  ∧ should_trigger ascii_lower true config event = (false, reason_no_match)
  ∧ should_trigger ascii_lower true config event ≠ (false, reason_empty).
Proof.
  intros config event. repeat split.
  vm_compute. discriminate.
Qed.

(** C7, as amended. Once the loaded, enabled, addressed and permission
    checks have passed, [should_trigger] answers with the empty-message
    reason exactly when the message text is empty after [strip()], that is,
    before mention markup is removed; the answer is then [False] whatever
    the keywords are. *)
Theorem should_trigger_empty_reason :
  ∀ (lower : str → str) (config : Config.t) (event : Event.t),
    Config.get (Config.enabled config) false = true →
    Event.is_at_or_wake_command event = true →
    _check_user_permission (event_user_id event) config = true →
    (should_trigger lower true config event = (false, reason_empty)
     ↔ strip (Event.message_str event) = []).
Proof.
  intros lower config event He Ha Hp.
  rewrite (should_trigger_after_checks lower config event He Ha Hp).
  destruct (strip (Event.message_str event)) as [|c content]; [done|].
  split; [|discriminate].
  destruct (match_keywords_cases lower
              (Config.get (Config.trigger_keywords config) [])
              (_clean_message_content (c :: content)))
    as [[E _] | (k & _ & _ & E)]; rewrite E; discriminate.
Qed.

Lemma should_trigger_empty_reason_witness :
  let config :=
    Config.mk (Some true) (Some [lit "td"]) None None None None None in
  let event :=
    Event.mk true [] [] (lit "   ") (lit "session") (lit "platform") in
  should_trigger ascii_lower true config event = (false, reason_empty).
Proof.
  intros config event.
  apply (should_trigger_empty_reason ascii_lower config event
           eq_refl eq_refl eq_refl).
  reflexivity.
Defined.

End TriggerSpec.

(** ** The prompt injection *)

Module PromptSpec.
Import PyStrFacts StateManager Main.

Lemma emit_app (a b : str) (o : format_outcome) :
  emit a (emit b o) = emit (a ++ b) o.
Proof. destruct o; simpl; [by rewrite app_assoc | done | done]. Qed.

Lemma emit_nil (o : format_outcome) : emit [] o = o.
Proof. by destruct o. Qed.

Section WithArguments.

Variables (item_name : str) (sensitivity : Z).

(** Literal text without braces is copied. *)
Lemma format_go_text (s rest : str) :
  brace_free s →
  format_go item_name sensitivity None (s ++ rest)
  = emit s (format_go item_name sensitivity None rest).
Proof.
  intros [Hl Hr]. induction s as [|c s IH]; simpl.
  - by rewrite emit_nil.
  - apply not_elem_of_cons in Hl as [Hl1 Hl2].
    apply not_elem_of_cons in Hr as [Hr1 Hr2].
    assert ((c =? lbrace)%N = false) as -> by (apply N.eqb_neq; congruence).
    assert ((c =? rbrace)%N = false) as -> by (apply N.eqb_neq; congruence).
    rewrite (IH Hl2 Hr2). by rewrite emit_app.
Qed.

(** Inside a replacement field, the code points of a plain name are
    collected up to the closing brace. *)
Lemma format_go_field (name : str) :
  ∀ acc rest,
    Forall (λ c, (c =? lbrace)%N = false ∧ ends_field_name c = false) name →
    format_go item_name sensitivity (Some acc) (name ++ rbrace :: rest)
    = match kwarg item_name sensitivity
              (first_component (rev acc ++ name)) with
      | None => Raises
      | Some value =>
          if bool_decide (first_component (rev acc ++ name) = rev acc ++ name)
          then emit value (format_go item_name sensitivity None rest)
          else Unmodelled
      end.
Proof.
  induction name as [|c name IH]; intros acc rest H.
  - rewrite app_nil_r. reflexivity.
  - inversion H as [|? ? [H1 H2] H']; subst.
    cbn [app format_go]. rewrite H1, H2.
    etrans; [apply (IH (c :: acc) rest H')|].
    cbn [rev]. by rewrite <- app_assoc.
Qed.

(** The two placeholders are replaced by the two values. *)
Lemma format_go_item_name (rest : str) :
  format_go item_name sensitivity None (lit "{item_name}" ++ rest)
  = emit item_name (format_go item_name sensitivity None rest).
Proof.
  change (lit "{item_name}" ++ rest)
    with (lbrace :: lit "item_name" ++ rbrace :: rest).
  change (format_go item_name sensitivity None
            (lbrace :: lit "item_name" ++ rbrace :: rest))
    with (format_go item_name sensitivity (Some [])
            (lit "item_name" ++ rbrace :: rest)).
  rewrite format_go_field.
  - reflexivity.
  - apply (bool_decide_unpack _). vm_compute. exact I.
Qed.

Lemma format_go_sensitivity (rest : str) :
  format_go item_name sensitivity None (lit "{sensitivity}" ++ rest)
  = emit (str_of_int sensitivity)
      (format_go item_name sensitivity None rest).
Proof.
  change (lit "{sensitivity}" ++ rest)
    with (lbrace :: lit "sensitivity" ++ rbrace :: rest).
  change (format_go item_name sensitivity None
            (lbrace :: lit "sensitivity" ++ rbrace :: rest))
    with (format_go item_name sensitivity (Some [])
            (lit "sensitivity" ++ rbrace :: rest)).
  rewrite format_go_field.
  - reflexivity.
  - apply (bool_decide_unpack _). vm_compute. exact I.
Qed.

(** A template made of brace-free text and the two placeholders renders to
    its substitution. *)
Lemma format_template_of (ps : list piece) :
  plain_pieces ps →
  format (template_of ps) item_name sensitivity
  = Rendered (substitute ps item_name sensitivity).
Proof.
  unfold format, template_of, substitute.
  induction ps as [|p ps IH]; intros Hplain; [reflexivity|].
  assert (IH' : format_go item_name sensitivity None
                  (concat (map piece_source ps))
                = Rendered
                    (concat (map (piece_value item_name sensitivity) ps))).
  { apply IH. intros s Hs. apply Hplain. by right. }
  cbn [map concat]. destruct p as [s| |]; cbn [piece_source piece_value].
  - rewrite format_go_text, IH'; [reflexivity|]. apply Hplain. by left.
  - by rewrite format_go_item_name, IH'.
  - by rewrite format_go_sensitivity, IH'.
Qed.

End WithArguments.

(** The decimal digits of a number are digits. *)
Lemma str_of_uint_digits (d : Decimal.uint) :
  Forall (λ c, (48 <= c <= 57)%N) (str_of_uint d).
Proof.
  induction d; simpl; constructor; (lia || assumption).
Qed.

Lemma str_of_int_brace_free (z : Z) : brace_free (str_of_int z).
Proof.
  assert (D : ∀ d, brace_free (str_of_uint d)).
  { intros d. pose proof (str_of_uint_digits d) as F.
    rewrite Forall_forall in F.
    split; intros H; apply F in H; unfold lbrace, rbrace in H; lia. }
  unfold str_of_int. destruct (Z.to_int z) as [d|d]; [apply D|].
  destruct (D d) as [Hl Hr].
  split; intros [E | H]%elem_of_cons; try discriminate E; auto.
Qed.

Lemma brace_free_app (a b : str) :
  brace_free a → brace_free b → brace_free (a ++ b).
Proof.
  intros [La Ra] [Lb Rb]. split; rewrite elem_of_app; tauto.
Qed.

Lemma substitute_brace_free (ps : list piece) (item_name : str)
    (sensitivity : Z) :
  plain_pieces ps → brace_free item_name →
  brace_free (substitute ps item_name sensitivity).
Proof.
  intros Hplain Hitem. unfold substitute.
  induction ps as [|p ps IH]; simpl.
  - split; apply not_elem_of_nil.
  - apply brace_free_app.
    + destruct p as [s| |]; simpl;
        [apply Hplain; by left | done | apply str_of_int_brace_free].
    + apply IH. intros s Hs. apply Hplain. by right.
Qed.

(** The value of a piece occurs in the substitution. *)
Lemma substitute_occurs (ps : list piece) (item_name : str)
    (sensitivity : Z) (p : piece) :
  p ∈ ps →
  occurs_in (piece_value item_name sensitivity p)
    (substitute ps item_name sensitivity).
Proof.
  intros (before & after & ->)%list_elem_of_split.
  exists (substitute before item_name sensitivity),
         (substitute after item_name sensitivity).
  unfold substitute. by rewrite map_app, concat_app.
Qed.

Lemma template_of_nonempty (ps : list piece) :
  ItemName ∈ ps → template_of ps ≠ [].
Proof.
  intros (before & after & ->)%list_elem_of_split E.
  unfold template_of in E. rewrite map_app, concat_app in E.
  apply app_eq_nil in E as [_ E]. discriminate E.
Qed.

(** C9, counterexample. The template contains both placeholders and one
    more replacement field; [format] raises for the unknown name, the
    exception is caught, and the system prompt of the request stays as it
    was although the session is active. *)
Lemma before_llm_request_unknown_field :
  let template := lit "{item_name} at {sensitivity}% for {user}" in
  let config :=
    Config.mk (Some true) None (Some (lit "Widget")) (Some 75) None None
      (Some template) in
  let event :=
    Event.mk true [] [] (lit "hello") (lit "session") (lit "platform") in
  let state_manager :=
    (activate_state (init 10) (lit "session") (lit "platform") 180 30
       1000%Q 1000%Q).1 in
  let request := mkRequest (lit "You are a helpful assistant.") in
  contains (lit "{item_name}") template = true
  ∧ contains (lit "{sensitivity}") template = true
  ∧ (is_state_active state_manager (lit "session") (lit "platform")
       1001%Q).2 = true
  ∧ format template (lit "Widget") 75 = Raises
  ∧ before_llm_request true config state_manager event request 1001%Q
    = Some (state_manager, request).
Proof. vm_compute. repeat split. Qed.

(** C9, as amended. Let the session be active and the prompt template be
    made of brace-free text and the placeholders [{item_name}] and
    [{sensitivity}], each at least once.  Then [format] renders the
    template to its substitution, in which the item name and the decimal
    digits of the sensitivity occur; the rendered text has no brace at all
    when the item name has none; and [before_llm_request] sets the system
    prompt to the rendered text, followed by a blank line and the former
    system prompt when that was non-empty. *)
Theorem before_llm_request_injects :
  ∀ (config : Config.t) (state_manager : StateManager.t) (event : Event.t)
    (request : ProviderRequest) (now : Q) (ps : list piece),
    (is_state_active state_manager (Event.unified_msg_origin event)
       (Event.get_platform_name event) now).2 = true →
    Config.get (Config.system_prompt_template config) [] = template_of ps →
    plain_pieces ps →
    ItemName ∈ ps →
    Sensitivity ∈ ps →
    let item_name :=
      Config.get (Config.interactive_item_name config) (lit "特殊装置") in
    let sensitivity := Config.get (Config.sensitivity_level config) 50 in
    let rendered := substitute ps item_name sensitivity in
    format (template_of ps) item_name sensitivity = Rendered rendered
    ∧ occurs_in item_name rendered
    ∧ occurs_in (str_of_int sensitivity) rendered
    ∧ (brace_free item_name → brace_free rendered)
    ∧ before_llm_request true config state_manager event request now
      = Some (state_manager,
              mkRequest
                match system_prompt request with
                | [] => rendered
                | _ :: _ => rendered ++ [10%N; 10%N] ++ system_prompt request
                end).
Proof.
  intros config sm event request now ps Hactive Htemplate Hplain Hitem Hsens
    item_name sensitivity rendered.
  pose proof (format_template_of item_name sensitivity ps Hplain) as Hfmt.
  fold rendered in Hfmt.
  split; [exact Hfmt|]. split; [|split; [|split]].
  - apply (substitute_occurs ps item_name sensitivity ItemName Hitem).
  - apply (substitute_occurs ps item_name sensitivity Sensitivity Hsens).
  - by apply substitute_brace_free.
  - unfold before_llm_request. cbn [negb].
    assert (Hsm : is_state_active sm (Event.unified_msg_origin event)
                    (Event.get_platform_name event) now = (sm, true)).
    { revert Hactive. unfold is_state_active.
      destruct (active_states sm !! _) as [e|]; [|discriminate].
      destruct (geb now e); [discriminate | reflexivity]. }
    rewrite Hsm. cbn [negb]. rewrite Htemplate.
    fold item_name sensitivity.
    pose proof (template_of_nonempty ps Hitem) as Hne.
    destruct (template_of ps) as [|c template] eqn:T; [done|].
    rewrite Hfmt. by destruct (system_prompt request).
Qed.

Lemma before_llm_request_injects_witness :
  let ps :=
    [Text (lit "Device "); ItemName; Text (lit " at "); Sensitivity;
     Text (lit "%")] in
  let config :=
    Config.mk (Some true) None (Some (lit "Widget")) (Some 75) None None
      (Some (template_of ps)) in
  let event :=
    Event.mk true [] [] (lit "hello") (lit "session") (lit "platform") in
  let state_manager :=
    (activate_state (init 10) (lit "session") (lit "platform") 180 30
       1000%Q 1000%Q).1 in
  let request := mkRequest (lit "You are a helpful assistant.") in
  before_llm_request true config state_manager event request 1001%Q
  = Some (state_manager,
          mkRequest (lit "Device Widget at 75%" ++ [10%N; 10%N]
                       ++ lit "You are a helpful assistant.")).
Proof.
  intros ps config event state_manager request.
  assert (H1 : (is_state_active state_manager (Event.unified_msg_origin event)
                  (Event.get_platform_name event) 1001%Q).2 = true)
    by (vm_compute; reflexivity).
  assert (H2 : Config.get (Config.system_prompt_template config) []
               = template_of ps) by reflexivity.
  assert (H3 : plain_pieces ps).
  { intros s Hs. apply (bool_decide_unpack _).
    unfold ps in Hs. rewrite !elem_of_cons, elem_of_nil in Hs.
    destruct Hs as [[= ->] | [[=] | [[= ->] | [[=] | [[= ->] | []]]]]];
      vm_compute; exact I. }
  assert (H4 : ItemName ∈ ps)
    by (unfold ps; rewrite !elem_of_cons; auto 10).
  assert (H5 : Sensitivity ∈ ps)
    by (unfold ps; rewrite !elem_of_cons; auto 10).
  pose proof (before_llm_request_injects config state_manager event request
                1001%Q ps H1 H2 H3 H4 H5) as H.
  cbv zeta in H. destruct H as (_ & _ & _ & _ & H).
  rewrite H. vm_compute. reflexivity.
Defined.

End PromptSpec.

(** ** Further properties of the registry *)

Module StateManagerMore.
Import ClockFacts StateManager StateManagerFacts.

Lemma py_int_nonpos (x : Q) : (x <= 0)%Q → py_int x ≤ 0.
Proof.
  intros H. unfold py_int. destruct (Qle_bool 0 x) eqn:E.
  - apply Qle_bool_iff in E.
    assert (x == 0)%Q as -> by (apply Qle_antisym; assumption).
    reflexivity.
  - change 0 with (Qceiling 0%Q). apply Qceiling_resp_le, H.
Qed.

(** [int] of a number in [[0, 1)] is [0]. *)
Lemma py_int_below_one (x : Q) : (0 <= x)%Q → (x < 1)%Q → py_int x = 0.
Proof.
  intros H0 H1. unfold py_int.
  assert (Qle_bool 0 x = true) as -> by (by apply Qle_bool_iff).
  pose proof (Qfloor_le x) as Hf. pose proof (Qlt_floor x) as Hc.
  assert (inject_Z (Qfloor x) < inject_Z 1)%Q as Hlt
    by (change (inject_Z 1) with 1%Q; lra).
  assert (inject_Z (-1) < inject_Z (Qfloor x))%Q as Hgt.
  { assert (inject_Z (Qfloor x + 1) == inject_Z (Qfloor x) + 1)%Q as E
      by (rewrite inject_Z_plus; reflexivity).
    rewrite E in Hc. change (inject_Z (-1)) with (-1)%Q. lra. }
  rewrite <- Zlt_Qlt in Hlt, Hgt. lia.
Qed.

(** Two maps with the same entries are equal. *)
Lemma map_eq_entries (m1 m2 : gmap str Q) :
  (∀ k e, m1 !! k = Some e ↔ m2 !! k = Some e) → m1 = m2.
Proof.
  intros H. apply map_eq. intros k. apply option_eq. intros e. apply H.
Qed.

(** X1. [get_remaining_time] is never negative; it is [0] for a key without
    entry and for an expired entry; a positive answer means that
    [is_state_active] is [True] at the same clock reading; the converse
    fails in the last second of a state, where the state is active and the
    answer is [0]. *)
Theorem get_remaining_time_bounds :
  ∀ (self : t) (sid plat : str) (now : Q),
    0 ≤ get_remaining_time self sid plat now
    ∧ (active_states self !! generate_state_key sid plat = None →
       get_remaining_time self sid plat now = 0)
    ∧ (∀ e, active_states self !! generate_state_key sid plat = Some e →
            (e <= now)%Q → get_remaining_time self sid plat now = 0)
    ∧ (0 < get_remaining_time self sid plat now →
       (is_state_active self sid plat now).2 = true)
    ∧ (∀ e, active_states self !! generate_state_key sid plat = Some e →
            (now < e)%Q → (e - now < 1)%Q →
            get_remaining_time self sid plat now = 0
            ∧ (is_state_active self sid plat now).2 = true).
Proof.
  intros self sid plat now.
  unfold get_remaining_time, is_state_active.
  destruct (active_states self !! generate_state_key sid plat) as [e|].
  - split; [lia|]. split; [discriminate|]. split; [|split].
    + intros e' [= <-] Hle.
      pose proof (py_int_nonpos (e - now)%Q ltac:(lra)). lia.
    + intros Hpos. destruct (geb now e) eqn:G; [|reflexivity].
      apply geb_le in G.
      pose proof (py_int_nonpos (e - now)%Q ltac:(lra)). lia.
    + intros e' [= <-] Hlt Hone.
      rewrite (py_int_below_one (e - now)%Q) by lra.
      apply geb_false_lt in Hlt. rewrite Hlt. done.
  - split; [lia|]. split; [done|]. split; [discriminate|].
    split; [lia | discriminate].
Qed.

Lemma get_remaining_time_bounds_witness :
  let self := (activate_state (init 1) (lit "A") [] 180 30 1000%Q 1000%Q).1 in
  get_remaining_time self (lit "A") [] (2359 # 2) = 0
  ∧ (is_state_active self (lit "A") [] (2359 # 2)).2 = true.
Proof.
  refine (proj2 (proj2 (proj2 (proj2
    (get_remaining_time_bounds
       (activate_state (init 1) (lit "A") [] 180 30 1000%Q 1000%Q).1
       (lit "A") [] (2359 # 2)))))
    (add_seconds 1000%Q 180) _ _ _).
  - vm_compute. reflexivity.
  - vm_compute. reflexivity.
  - vm_compute. reflexivity.
Defined.

(** X2. [_cleanup_expired_states] keeps, in both dictionaries, exactly the
    entries whose end time is after the clock reading, with their end
    times; it leaves the cap alone; and a cleanup followed by a cleanup at
    a later (or the same) reading is the later cleanup, so the method is
    idempotent. *)
Theorem cleanup_expired_states_spec :
  ∀ (self : t) (now : Q),
    (∀ k e, active_states (_cleanup_expired_states self now) !! k = Some e
            ↔ active_states self !! k = Some e ∧ (now < e)%Q)
    ∧ (∀ k e, cooldowns (_cleanup_expired_states self now) !! k = Some e
              ↔ cooldowns self !! k = Some e ∧ (now < e)%Q)
    ∧ max_concurrent_states (_cleanup_expired_states self now)
      = max_concurrent_states self
    ∧ (∀ later, (now <= later)%Q →
         _cleanup_expired_states (_cleanup_expired_states self now) later
         = _cleanup_expired_states self later).
Proof.
  intros self now. split; [|split; [|split]].
  - intros k e. apply lookup_cleanup.
  - intros k e. apply lookup_cleanup.
  - reflexivity.
  - intros later Hle. unfold _cleanup_expired_states. simpl.
    f_equal; apply map_eq_entries; intros k e;
      rewrite !lookup_cleanup; split.
    + intros [[H _] L]. done.
    + intros [H L]. repeat split; [done | lra | done].
    + intros [[H _] L]. done.
    + intros [H L]. repeat split; [done | lra | done].
Qed.

Lemma cleanup_expired_states_spec_witness :
  let self := (activate_state (init 1) (lit "A") [] 180 30 1000%Q 1000%Q).1 in
  _cleanup_expired_states (_cleanup_expired_states self 1010%Q) 1040%Q
  = _cleanup_expired_states self 1040%Q.
Proof.
  refine (proj2 (proj2 (proj2
    (cleanup_expired_states_spec
       (activate_state (init 1) (lit "A") [] 180 30 1000%Q 1000%Q).1
       1010%Q))) 1040%Q _).
  vm_compute. discriminate.
Defined.

(** All entries of a map of options are there: dropping the absent ones
    keeps the size. *)
Lemma size_omap_id {A : Type} (m : gmap str (option A)) :
  map_Forall (λ _ entry, is_Some entry) m → size (omap id m) = size m.
Proof.
  intros HF.
  rewrite <- (size_dom (D := gset str) (omap id m)).
  rewrite <- (size_dom (D := gset str) m).
  f_equal. apply set_eq. intros k. rewrite !elem_of_dom. split.
  - intros [x Hx]. apply lookup_omap_id_Some in Hx. eauto.
  - intros [v Hv]. destruct (HF k v Hv) as [x ->].
    exists x. by apply lookup_omap_id_Some.
Qed.

(** X3. [get_active_states_info] leaves the registry as
    [_cleanup_expired_states] leaves it, whether it returns or raises.  It
    raises exactly when the end time of some state that is unexpired at the
    cleanup reading cannot be rendered by [datetime].  When it returns, the
    result has an entry exactly for the keys whose state is unexpired at
    the cleanup reading, with [int(end_time - current_time)] and the
    rendered end time; the number of entries is the number of live states;
    and no remaining time is negative when the reading taken on entry is
    not after the one of the cleanup. *)
Theorem get_active_states_info_rendered_spec :
  ∀ (render : Q → option str) (self : t) (now now' : Q),
    (Snapshot.get_active_states_info_rendered render self now now').1
    = _cleanup_expired_states self now'
    ∧ ((Snapshot.get_active_states_info_rendered render self now now').2
       = None
       ↔ ∃ k e, active_states self !! k = Some e ∧ (now' < e)%Q
                ∧ render e = None)
    ∧ (∀ info,
         (Snapshot.get_active_states_info_rendered render self now now').2
         = Some info →
         (∀ k remaining rendered,
            info !! k = Some (remaining, rendered)
            ↔ ∃ e, active_states self !! k = Some e ∧ (now' < e)%Q
                   ∧ remaining = py_int (e - now)%Q
                   ∧ render e = Some rendered)
         ∧ Z.of_nat (size info) = live_count self now'
         ∧ ((now <= now')%Q →
            ∀ k remaining rendered,
              info !! k = Some (remaining, rendered) → 0 ≤ remaining)).
Proof.
  intros render self now now'.
  unfold Snapshot.get_active_states_info_rendered. cbn [fst snd].
  set (live := active_states (_cleanup_expired_states self now')).
  set (entries := Snapshot.render_entry render now <$> live).
  assert (Hlive : ∀ k e, live !! k = Some e
                         ↔ active_states self !! k = Some e ∧ (now' < e)%Q).
  { intros k e. apply lookup_cleanup. }
  assert (Hentry : ∀ k remaining rendered,
            entries !! k = Some (Some (remaining, rendered))
            ↔ ∃ e, active_states self !! k = Some e ∧ (now' < e)%Q
                   ∧ remaining = py_int (e - now)%Q
                   ∧ render e = Some rendered).
  { intros k remaining rendered. unfold entries.
    rewrite lookup_fmap_Some. unfold Snapshot.render_entry. split.
    - intros (e & He & [H1 H2]%Hlive). exists e.
      destruct (render e) as [iso|]; [|discriminate].
      by injection He as <- <-.
    - intros (e & H1 & H2 & -> & Hr). exists e. rewrite Hr.
      split; [done|]. by apply Hlive. }
  split; [reflexivity|]. split.
  - destruct (bool_decide (map_Forall (λ _ entry, is_Some entry) entries))
      eqn:B.
    + apply bool_decide_eq_true in B. split; [discriminate|].
      intros (k & e & H1 & H2 & Hr). exfalso.
      assert (entries !! k = Some None) as Hk.
      { unfold entries. rewrite lookup_fmap_Some. exists e.
        unfold Snapshot.render_entry. rewrite Hr. split; [done|].
        by apply Hlive. }
      destruct (B k None Hk) as [x Hx]. discriminate Hx.
    + apply bool_decide_eq_false in B. split; [|done]. intros _.
      apply map_not_Forall in B as (k & entry & Hk & Hnone);
        [|intros; apply _].
      unfold entries in Hk. apply lookup_fmap_Some in Hk as (e & He & Hl).
      apply Hlive in Hl as [H1 H2]. exists k, e.
      repeat split; try done.
      unfold Snapshot.render_entry in He.
      destruct (render e); [|done].
      subst entry. exfalso. apply Hnone. eauto.
  - intros info.
    destruct (bool_decide (map_Forall (λ _ entry, is_Some entry) entries))
      eqn:B; [|discriminate].
    apply bool_decide_eq_true in B. intros [= <-].
    assert (L : ∀ k remaining rendered,
              omap id entries !! k = Some (remaining, rendered)
              ↔ ∃ e, active_states self !! k = Some e ∧ (now' < e)%Q
                     ∧ remaining = py_int (e - now)%Q
                     ∧ render e = Some rendered).
    { intros k remaining rendered. rewrite lookup_omap_id_Some.
      apply Hentry. }
    split; [exact L|]. split.
    + rewrite (size_omap_id entries B). unfold entries, live, live_count.
      by rewrite map_size_fmap.
    + intros Hle k remaining rendered (e & H1 & H2 & -> & _)%L.
      apply py_int_nonneg. lra.
Qed.

Lemma get_active_states_info_rendered_spec_witness :
  0 ≤ py_int (add_seconds 1000%Q 180 - 1001)%Q.
Proof.
  pose (render := λ _ : Q, Some (lit "2001-09-09T01:49:40")).
  pose (self := (activate_state (init 1) (lit "A") [] 180 30 1000%Q
                   1000%Q).1).
  destruct (get_active_states_info_rendered_spec render self 1001%Q 1002%Q)
    as (_ & _ & H).
  destruct (H (omap id
                 (Snapshot.render_entry render 1001%Q
                    <$> active_states (_cleanup_expired_states self 1002%Q))))
    as (_ & _ & Hnonneg).
  - vm_compute. reflexivity.
  - apply (Hnonneg ltac:(vm_compute; discriminate) (lit "A") _
             (lit "2001-09-09T01:49:40")).
    vm_compute. reflexivity.
Defined.

(** X4. When [activate_state] succeeds, the key had no live cooldown and no
    live state, and the registry held fewer states than the cap once the
    stale entry of the key and the expired entries were gone.  Conversely,
    under these three conditions the call succeeds, for a duration and a
    cooldown that convert to doubles (the sums of the source raise
    [OverflowError] beyond). *)
Theorem activate_state_succeeds_iff :
  ∀ (self : t) (sid plat : str) (d c : Z) (now now' : Q),
    ((activate_state self sid plat d c now now').2.1 = true →
     (∀ e, cooldowns self !! generate_state_key sid plat = Some e →
           (e <= now)%Q)
     ∧ (∀ e, active_states self !! generate_state_key sid plat = Some e →
             (e <= now)%Q)
     ∧ Z.of_nat
         (size (active_states
                  (at_capacity_check self (generate_state_key sid plat)
                     now')))
       < max_concurrent_states self)
    ∧ (Doubles.converts_to_double d →
       Doubles.converts_to_double c →
       (∀ e, cooldowns self !! generate_state_key sid plat = Some e →
             (e <= now)%Q) →
       (∀ e, active_states self !! generate_state_key sid plat = Some e →
             (e <= now)%Q) →
       Z.of_nat
         (size (active_states
                  (at_capacity_check self (generate_state_key sid plat)
                     now')))
       < max_concurrent_states self →
       (activate_state self sid plat d c now now').2.1 = true).
Proof.
  intros self sid plat d c now now'.
  pose proof (activate_state_case self sid plat d c now now') as C.
  set (key := generate_state_key sid plat) in *.
  inversion C as [e He Hlt Heq | e Hcd He Hlt Heq | Hcd Hstale Hcap Heq
                 | Hcd Hstale Hlt Heq]; cbn [fst snd].
  - split; [discriminate|]. intros _ _ H _ _. specialize (H e He). lra.
  - split; [discriminate|]. intros _ _ _ H _. specialize (H e He). lra.
  - split; [discriminate|]. intros _ _ _ _ H. lia.
  - split; [|done]. intros _. split; [|done].
    by apply cooldown_remaining_None.
Qed.

Lemma activate_state_succeeds_iff_witness :
  (activate_state (init 1) (lit "A") [] 180 30 1000%Q 1000%Q).2.1 = true.
Proof.
  apply (proj2 (activate_state_succeeds_iff (init 1) (lit "A") [] 180 30
                  1000%Q 1000%Q)).
  - vm_compute. discriminate.
  - vm_compute. discriminate.
  - intros e H. vm_compute in H. discriminate H.
  - intros e H. vm_compute in H. discriminate H.
  - vm_compute. reflexivity.
Defined.


(** A successful [activate_state], as an equation on the registry. *)
Lemma activate_state_true_registry self sid plat d c now now' self' msg :
  activate_state self sid plat d c now now' = (self', (true, msg)) →
  self' = mk (<[generate_state_key sid plat := add_seconds now d]>
                (active_states
                   (at_capacity_check self (generate_state_key sid plat)
                      now')))
             (<[generate_state_key sid plat := add_seconds now c]>
                (cooldowns
                   (at_capacity_check self (generate_state_key sid plat)
                      now')))
             (max_concurrent_states self).
Proof.
  intros H.
  pose proof (activate_state_case self sid plat d c now now') as C.
  rewrite H in C. by inversion C.
Qed.



(** X6. A successful [activate_state] touches the other keys only through
    the cleanup: for a key other than the activated one, the entries of
    both dictionaries after the call are the entries before it that are
    unexpired at the cleanup reading, with the same end times. *)
Theorem activate_state_other_keys :
  ∀ (self self' : t) (sid plat : str) (d c : Z) (now now' : Q) (msg : str),
    activate_state self sid plat d c now now' = (self', (true, msg)) →
    ∀ k, k ≠ generate_state_key sid plat →
      (∀ e, active_states self' !! k = Some e
            ↔ active_states self !! k = Some e ∧ (now' < e)%Q)
      ∧ (∀ e, cooldowns self' !! k = Some e
              ↔ cooldowns self !! k = Some e ∧ (now' < e)%Q).
Proof.
  intros self self' sid plat d c now now' msg Hact k Hk.
  apply activate_state_true_registry in Hact as ->.
  unfold at_capacity_check, _cleanup_expired_states. simpl.
  split; intros e; rewrite lookup_insert_ne by done; rewrite lookup_cleanup.
  - by rewrite lookup_delete_ne.
  - done.
Qed.

Lemma activate_state_other_keys_witness :
  let self := (activate_state (init 2) (lit "A") [] 180 30 1000%Q 1000%Q).1 in
  let self' := (activate_state self (lit "B") [] 180 30 1040%Q 1040%Q).1 in
  (∀ e, active_states self' !! lit "A" = Some e
        ↔ active_states self !! lit "A" = Some e ∧ (1040 < e)%Q)
  ∧ (∀ e, cooldowns self' !! lit "A" = Some e
          ↔ cooldowns self !! lit "A" = Some e ∧ (1040 < e)%Q).
Proof.
  apply (activate_state_other_keys
           (activate_state (init 2) (lit "A") [] 180 30 1000%Q 1000%Q).1
           _ (lit "B") [] 180 30 1040%Q 1040%Q
           (activate_state
              (activate_state (init 2) (lit "A") [] 180 30 1000%Q 1000%Q).1
              (lit "B") [] 180 30 1040%Q 1040%Q).2.2).
  - vm_compute. reflexivity.
  - discriminate.
Defined.



(** X8. [is_state_active] never changes [cooldowns] or the cap, never
    changes the entry of another key, and asking again at the same clock
    reading gives the same answer and changes nothing more. *)
Theorem is_state_active_frame :
  ∀ (self : t) (sid plat : str) (now : Q),
    cooldowns (is_state_active self sid plat now).1 = cooldowns self
    ∧ max_concurrent_states (is_state_active self sid plat now).1
      = max_concurrent_states self
    ∧ (∀ k, k ≠ generate_state_key sid plat →
         active_states (is_state_active self sid plat now).1 !! k
         = active_states self !! k)
    ∧ is_state_active (is_state_active self sid plat now).1 sid plat now
      = is_state_active self sid plat now.
Proof.
  intros self sid plat now. unfold is_state_active.
  destruct (active_states self !! generate_state_key sid plat) as [e|] eqn:A.
  - destruct (geb now e) eqn:G; simpl.
    + repeat split.
      * intros k Hk. by rewrite lookup_delete_ne.
      * by rewrite lookup_delete_eq.
    + repeat split. by rewrite A, G.
  - simpl. repeat split. by rewrite A.
Qed.

(** X9. Expiry is final: once [is_state_active] is [False] for a key at one
    clock reading, it is [False] on the same registry at every later
    reading; and the number of live states can only go down as the clock
    advances. *)
Theorem expiry_is_monotone :
  ∀ (self : t) (sid plat : str) (now later : Q),
    (now <= later)%Q →
    ((is_state_active self sid plat now).2 = false →
     (is_state_active self sid plat later).2 = false)
    ∧ live_count self later ≤ live_count self now.
Proof.
  intros self sid plat now later Hle. split.
  - unfold is_state_active.
    destruct (active_states self !! generate_state_key sid plat) as [e|];
      [|done].
    destruct (geb now e) eqn:G; [|discriminate]. intros _.
    apply geb_le in G.
    assert (geb later e = true) as -> by (apply geb_le; lra). done.
  - unfold live_count. apply inj_le, map_subseteq_size.
    apply map_subseteq_spec. intros k e.
    rewrite !lookup_cleanup. intros [H L]. split; [done | lra].
Qed.

Lemma expiry_is_monotone_witness :
  let self := (activate_state (init 1) (lit "A") [] 180 30 1000%Q 1000%Q).1 in
  ((is_state_active self (lit "A") [] 1180%Q).2 = false →
   (is_state_active self (lit "A") [] 2000%Q).2 = false)
  ∧ live_count self 2000%Q ≤ live_count self 1180%Q.
Proof.
  apply (expiry_is_monotone
           (activate_state (init 1) (lit "A") [] 180 30 1000%Q 1000%Q).1
           (lit "A") [] 1180%Q 2000%Q).
  vm_compute. discriminate.
Defined.




End StateManagerMore.

(** ** Further properties of strings *)

Module PyStrMore.
Import PyStrFacts.

(** [lstrip] removes a run of white space from the front. *)
Lemma lstrip_spec (s : str) :
  ∃ pre, s = pre ++ lstrip s ∧ Forall (λ c, isspace c = true) pre.
Proof.
  induction s as [|c s (pre & E & F)]; simpl.
  - by exists [].
  - destruct (isspace c) eqn:Sp.
    + exists (c :: pre). split; [by rewrite E at 1 | by constructor].
    + by exists [].
Qed.

Lemma lstrip_head (s : str) (c : char) (r : str) :
  lstrip s = c :: r → isspace c = false.
Proof.
  induction s as [|a s IH]; simpl; [discriminate|].
  destruct (isspace a) eqn:Sp; [exact IH|]. by intros [= <- _].
Qed.

Lemma lstrip_id (s : str) :
  (∀ c r, s = c :: r → isspace c = false) → lstrip s = s.
Proof.
  destruct s as [|c r]; [done|]. intros H. simpl.
  by rewrite (H c r eq_refl).
Qed.

Lemma elem_of_lstrip (s : str) (c : char) : c ∈ lstrip s → c ∈ s.
Proof.
  destruct (lstrip_spec s) as (pre & E & _). intros H.
  rewrite E. apply elem_of_app. by right.
Qed.

Lemma elem_of_rev_iff (s : str) (c : char) : c ∈ rev s ↔ c ∈ s.
Proof. rewrite !list_elem_of_In. symmetry. apply in_rev. Qed.

Lemma elem_of_strip (s : str) (c : char) : c ∈ strip s → c ∈ s.
Proof.
  unfold strip. intros H.
  apply (proj1 (elem_of_rev_iff _ _)) in H.
  apply elem_of_lstrip in H.
  apply (proj1 (elem_of_rev_iff _ _)) in H.
  exact (elem_of_lstrip _ _ H).
Qed.

(** The stripped string neither starts nor ends with white space. *)
Lemma strip_last (s : str) (r : str) (c : char) :
  strip s = r ++ [c] → isspace c = false.
Proof.
  unfold strip. intros H.
  apply (f_equal (@rev N)) in H. rewrite rev_involutive, rev_app_distr in H.
  simpl in H. by apply lstrip_head in H.
Qed.

Lemma strip_head (s : str) (c : char) (r : str) :
  strip s = c :: r → isspace c = false.
Proof.
  unfold strip. intros H.
  destruct (lstrip_spec (rev (lstrip s))) as (pre & E & _).
  apply (f_equal (@rev N)) in H. rewrite rev_involutive in H.
  rewrite H in E. simpl in E.
  apply (f_equal (@rev N)) in E.
  rewrite rev_involutive, rev_app_distr, rev_app_distr in E.
  rewrite rev_involutive in E. simpl in E.
  by apply lstrip_head in E.
Qed.

(** [strip] leaves alone a string that neither starts nor ends with white
    space. *)
Lemma strip_id (s : str) :
  (∀ c r, s = c :: r → isspace c = false) →
  (∀ r c, s = r ++ [c] → isspace c = false) →
  strip s = s.
Proof.
  intros Hh Hl. unfold strip. rewrite (lstrip_id s Hh).
  rewrite lstrip_id; [apply rev_involutive|].
  intros c r E. apply (f_equal (@rev N)) in E.
  rewrite rev_involutive in E. simpl in E. by apply (Hl (rev r)).
Qed.

Lemma strip_idempotent (s : str) : strip (strip s) = strip s.
Proof.
  apply strip_id; [apply strip_head | apply strip_last].
Qed.

(** A needle whose first code point is absent from the haystack does not
    occur in it. *)
Lemma contains_head_absent (c : char) (sub s : str) :
  c ∉ s → contains (c :: sub) s = false.
Proof.
  induction s as [|a s IH]; intros H; simpl; [done|].
  apply not_elem_of_cons in H as [Hne H].
  rewrite (IH H), orb_false_r.
  apply andb_false_iff. left. by apply N.eqb_neq.
Qed.

Lemma contains_prefix (sub rest : str) : contains sub (sub ++ rest) = true.
Proof. apply contains_spec. by exists [], rest. Qed.

End PyStrMore.

(** ** Further properties of the trigger evaluator *)

Module TriggerMore.
Import PyStrFacts PyStrMore Main TriggerSpec.

(** The permission gate refuses exactly the senders that are absent from a
    non-empty list of authorised users, outside the admin-only mode. *)
Lemma check_user_permission_false (user_id : str) (config : Config.t) :
  _check_user_permission user_id config = false
  ↔ Config.get (Config.admin_only_mode config) false = false
    ∧ Config.get (Config.authorized_users config) [] ≠ []
    ∧ user_id ∉ Config.get (Config.authorized_users config) [].
Proof.
  unfold _check_user_permission.
  destruct (Config.get (Config.admin_only_mode config) false).
  { split; [discriminate | by intros [? _]]. }
  destruct (Config.get (Config.authorized_users config) [])
    as [|u users] eqn:U.
  { split; [discriminate | by intros (_ & ? & _)]. }
  rewrite bool_decide_eq_false. split; [done | by intros (_ & _ & ?)].
Qed.

(** X11. [should_trigger] fires exactly when the plugin is loaded and
    enabled, the message is addressed to the bot, the sender passes the
    permission gate, the text is not empty after [strip()] and some
    configured keyword, lower-cased, is a substring of the lower-cased
    cleaned text.  In particular a message that is not addressed to the bot
    never fires, whatever it contains, and nothing fires while the plugin
    is disabled. *)
Theorem should_trigger_fires_iff :
  ∀ (lower : str → str) (is_loaded : bool) (config : Config.t)
    (event : Event.t),
    ((should_trigger lower is_loaded config event).1 = true
     ↔ is_loaded = true
       ∧ Config.get (Config.enabled config) false = true
       ∧ Event.is_at_or_wake_command event = true
       ∧ _check_user_permission (event_user_id event) config = true
       ∧ strip (Event.message_str event) ≠ []
       ∧ ∃ k, k ∈ Config.get (Config.trigger_keywords config) []
              ∧ occurs_in (lower k)
                  (lower (_clean_message_content
                            (strip (Event.message_str event)))))
    ∧ (Event.is_at_or_wake_command event = false →
       (should_trigger lower is_loaded config event).1 = false)
    ∧ (Config.get (Config.enabled config) false = false →
       (should_trigger lower is_loaded config event).1 = false).
Proof.
  intros lower is_loaded config event.
  assert (Main : (should_trigger lower is_loaded config event).1 = true
     ↔ is_loaded = true
       ∧ Config.get (Config.enabled config) false = true
       ∧ Event.is_at_or_wake_command event = true
       ∧ _check_user_permission (event_user_id event) config = true
       ∧ strip (Event.message_str event) ≠ []
       ∧ ∃ k, k ∈ Config.get (Config.trigger_keywords config) []
              ∧ occurs_in (lower k)
                  (lower (_clean_message_content
                            (strip (Event.message_str event))))).
  { unfold should_trigger.
    destruct is_loaded; simpl; [|split; [discriminate | by intros [? _]]].
    destruct (Config.get (Config.enabled config) false); simpl;
      [|split; [discriminate | by intros (_ & ? & _)]].
    destruct (Event.is_at_or_wake_command event); simpl;
      [|split; [discriminate | by intros (_ & _ & ? & _)]].
    destruct (_check_user_permission (event_user_id event) config); simpl;
      [|split; [discriminate | by intros (_ & _ & _ & ? & _)]].
    destruct (strip (Event.message_str event)) as [|c content] eqn:S;
      [split; [discriminate | by intros (_ & _ & _ & _ & ? & _)]|].
    destruct (match_keywords_cases lower
                (Config.get (Config.trigger_keywords config) [])
                (_clean_message_content (c :: content)))
      as [[E Hnone] | (k & Hk & Hc & E)]; rewrite E; simpl.
    - split; [discriminate|].
      intros (_ & _ & _ & _ & _ & k & Hk & Hm).
      apply contains_spec in Hm. rewrite (Hnone k Hk) in Hm. discriminate.
    - split; [|done]. intros _. repeat split; try done.
      exists k. split; [done|]. by apply contains_spec. }
  split; [exact Main|]. split.
  - intros Hat. apply not_true_iff_false. intros H%Main.
    destruct H as (_ & _ & H & _). congruence.
  - intros Hen. apply not_true_iff_false. intros H%Main.
    destruct H as (_ & H & _). congruence.
Qed.

Lemma should_trigger_fires_iff_witness :
  let config :=
    Config.mk (Some true) (Some [lit "td"; lit "控制"]) None None None None
      None in
  let event :=
    Event.mk false [] [] (lit "请开始控制吧") (lit "session")
      (lit "platform") in
  (should_trigger ascii_lower true config event).1 = false.
Proof.
  intros config event.
  apply (proj1 (proj2
    (should_trigger_fires_iff ascii_lower true config event))).
  reflexivity.
Defined.

(** One conjunct of the statement below, for a call that a check has
    refused with a known reason: either both sides hold, or the two
    reasons differ and some equation between booleans fails. *)
Local Ltac refused_conjunct :=
  lazymatch goal with
  | |- (false, ?a) = (false, ?b) ↔ _ =>
      tryif constr_eq a b
      then (split; [intros _; repeat split; reflexivity
                   | intros _; reflexivity])
      else (split;
            [ intros H; exfalso; vm_compute in H; discriminate H
            | intros H; exfalso;
              repeat match goal with
                     | H' : _ ∧ _ |- _ => destruct H'
                     end;
              congruence ])
  end.

Local Ltac refused :=
  split; [|split; [|split]]; refused_conjunct.

(** X12. The reason of a refusal names the first check that failed: the
    not-loaded reason means that the plugin is not loaded; the disabled
    reason, that it is loaded and not enabled; the not-addressed reason,
    that it is loaded and enabled and the message is not addressed to the
    bot; the no-permission reason, that those three checks passed and the
    sender is absent from a non-empty list of authorised users while the
    admin-only mode is off.  So in admin-only mode no sender is refused for
    lack of permission. *)
Theorem should_trigger_reason_order :
  ∀ (lower : str → str) (is_loaded : bool) (config : Config.t)
    (event : Event.t),
    (should_trigger lower is_loaded config event = (false, reason_not_loaded)
     ↔ is_loaded = false)
    ∧ (should_trigger lower is_loaded config event
       = (false, reason_disabled)
       ↔ is_loaded = true
         ∧ Config.get (Config.enabled config) false = false)
    ∧ (should_trigger lower is_loaded config event = (false, reason_not_at)
       ↔ is_loaded = true
         ∧ Config.get (Config.enabled config) false = true
         ∧ Event.is_at_or_wake_command event = false)
    ∧ (should_trigger lower is_loaded config event
       = (false, reason_no_permission)
       ↔ is_loaded = true
         ∧ Config.get (Config.enabled config) false = true
         ∧ Event.is_at_or_wake_command event = true
         ∧ Config.get (Config.admin_only_mode config) false = false
         ∧ Config.get (Config.authorized_users config) [] ≠ []
         ∧ event_user_id event
           ∉ Config.get (Config.authorized_users config) []).
Proof.
  intros lower is_loaded config event.
  rewrite <- (check_user_permission_false (event_user_id event) config).
  unfold should_trigger.
  destruct is_loaded; cbn [negb]; [|refused].
  destruct (Config.get (Config.enabled config) false); cbn [negb];
    [|refused].
  destruct (Event.is_at_or_wake_command event); cbn [negb]; [|refused].
  destruct (_check_user_permission (event_user_id event) config);
    cbn [negb]; [|refused].
  assert (R : ∀ reason,
            reason ≠ reason_empty → reason ≠ reason_no_match →
            match strip (Event.message_str event) with
            | [] => (false, reason_empty)
            | _ :: _ =>
                match_keywords lower
                  (Config.get (Config.trigger_keywords config) [])
                  (_clean_message_content (strip (Event.message_str event)))
            end ≠ (false, reason)).
  { intros reason H1 H2.
    destruct (strip (Event.message_str event)) as [|c content];
      [congruence|].
    destruct (match_keywords_cases lower
                (Config.get (Config.trigger_keywords config) [])
                (_clean_message_content (c :: content)))
      as [[E _] | (k & _ & _ & E)]; rewrite E; congruence. }
  split; [|split; [|split]];
    (split;
     [ intros H; exfalso; revert H; apply R;
       intros E; vm_compute in E; discriminate E
     | intros H; exfalso;
       repeat match goal with
              | H' : _ ∧ _ |- _ => destruct H'
              end;
       congruence ]).
Qed.

End TriggerMore.

(** ** The cleaning of the message text *)

Module CleanSpec.
Import PyStrFacts PyStrMore Main.

(** No [@] is left by the first substitution. *)
Lemma remove_at_mentions_no_at (s : str) :
  ∀ in_mention, 64%N ∉ remove_at_mentions in_mention s.
Proof.
  induction s as [|c s IH]; intros in_mention; simpl.
  - apply not_elem_of_nil.
  - destruct in_mention.
    + destruct (isspace c) eqn:Sp; [|apply IH].
      apply not_elem_of_cons. split; [|apply IH].
      intros <-. discriminate Sp.
    + destruct (c =? 64)%N eqn:E; [apply IH|].
      apply not_elem_of_cons. split; [|apply IH].
      apply N.eqb_neq in E. congruence.
Qed.

(** Both substitutions only delete code points. *)
Lemma elem_of_remove_at_mentions (s : str) (x : char) :
  ∀ in_mention, x ∈ remove_at_mentions in_mention s → x ∈ s.
Proof.
  induction s as [|c s IH]; intros in_mention; simpl; [done|].
  destruct in_mention.
  - destruct (isspace c).
    + intros [-> | H]%elem_of_cons; [by left | right; by eapply IH].
    + intros H. right. by eapply IH.
  - destruct (c =? 64)%N.
    + intros H. right. by eapply IH.
    + intros [-> | H]%elem_of_cons; [by left | right; by eapply IH].
Qed.

Lemma elem_of_remove_cq_at (s : str) (x : char) :
  ∀ skip, x ∈ remove_cq_at skip s → x ∈ s.
Proof.
  induction s as [|c s IH]; intros skip; [by destruct skip|].
  cbn [remove_cq_at]. destruct skip as [|k].
  - destruct (cq_at_match (c :: s)) as [n|].
    + intros H. right. by eapply IH.
    + intros [-> | H]%elem_of_cons; [by left | right; by eapply IH].
  - intros H. right. by eapply IH.
Qed.

(** Without [@] the first substitution changes nothing, and without an
    opening bracket neither does the second. *)
Lemma remove_at_mentions_plain (s : str) :
  64%N ∉ s → remove_at_mentions false s = s.
Proof.
  induction s as [|c s IH]; intros H; simpl; [done|].
  apply not_elem_of_cons in H as [Hc H].
  assert ((c =? 64)%N = false) as -> by (apply N.eqb_neq; congruence).
  by rewrite (IH H).
Qed.

Lemma remove_cq_at_plain (s : str) : 91%N ∉ s → remove_cq_at 0 s = s.
Proof.
  induction s as [|c s IH]; intros H; [done|].
  apply not_elem_of_cons in H as [Hc H].
  cbn [remove_cq_at].
  assert (cq_at_match (c :: s) = None) as ->.
  { unfold cq_at_match.
    change (lit "[CQ:at") with [91; 67; 81; 58; 97; 116]%N.
    cbn [prefixb].
    assert ((91 =? c)%N = false) as -> by (apply N.eqb_neq; congruence).
    done. }
  by rewrite (IH H).
Qed.

(** A mention runs to the next white space. *)
Lemma remove_at_mentions_token (s : str) :
  Forall (λ c, isspace c = false) s → remove_at_mentions true s = [].
Proof.
  induction 1 as [|c s Hc _ IH]; simpl; [done|]. by rewrite Hc.
Qed.

(** X13. The cleaned message never contains an [@], neither starts nor
    ends with white space, and has no code point that the message did not
    have. *)
Theorem clean_message_content_shape :
  ∀ (message : str),
    (64%N ∉ _clean_message_content message)
    ∧ (∀ c r, _clean_message_content message = c :: r → isspace c = false)
    ∧ (∀ r c, _clean_message_content message = r ++ [c] →
              isspace c = false)
    ∧ (∀ c, c ∈ _clean_message_content message → c ∈ message).
Proof.
  intros message. unfold _clean_message_content.
  assert (Sub : ∀ c,
            c ∈ strip (remove_cq_at 0 (remove_at_mentions false message)) →
            c ∈ remove_at_mentions false message).
  { intros c H. apply elem_of_strip in H. by eapply elem_of_remove_cq_at. }
  split; [|split; [|split]].
  - intros H. apply Sub in H. by apply remove_at_mentions_no_at in H.
  - apply strip_head.
  - apply strip_last.
  - intros c H. apply Sub in H. by eapply elem_of_remove_at_mentions.
Qed.

(** X14. On a message without [@] and without an opening square bracket,
    cleaning is [strip()]; a message that is one mention, an [@] followed
    by code points that are not white space, cleans to the empty string. *)
Theorem clean_message_content_plain :
  ∀ (message : str),
    ((64%N ∉ message) → (91%N ∉ message) →
     _clean_message_content message = strip message)
    ∧ (∀ name, message = 64%N :: name →
               Forall (λ c, isspace c = false) name →
               _clean_message_content message = []).
Proof.
  intros message. split.
  - intros Hat Hbr. unfold _clean_message_content.
    by rewrite remove_at_mentions_plain, remove_cq_at_plain.
  - intros name -> Hname. unfold _clean_message_content.
    cbn [remove_at_mentions]. change (64 =? 64)%N with true. cbv iota.
    by rewrite remove_at_mentions_token.
Qed.

Lemma clean_message_content_plain_witness :
  _clean_message_content (lit "  请开始控制吧  ") = strip (lit "  请开始控制吧  ")
  ∧ _clean_message_content (lit "@bot") = [].
Proof.
  split.
  - apply (proj1 (clean_message_content_plain (lit "  请开始控制吧  ")));
      apply (bool_decide_unpack _); vm_compute; exact I.
  - apply (proj2 (clean_message_content_plain (lit "@bot")) (lit "bot")).
    + reflexivity.
    + apply (bool_decide_unpack _). vm_compute. exact I.
Defined.

End CleanSpec.
